(** * gocells: payload, payload waiter, pair behavior and counter behavior

    A shallow embedding of [cells/payload.go] and of the pair behavior of
    the [behaviors] package, with the properties their specification
    states about them.

    Conventions of the embedding:
    - a Go [interface{}] value is a [value], a closed sum over the dynamic
      types that occur in the package;
    - a [*payload] is an address ([ptr]) in an explicit heap, so that
      allocation, aliasing and mutation are visible;
    - a Go [map] is a [gmap]; a [for ... range] loop over a map is a
      [map_fold] (the iteration order of Go is unspecified, and the loops
      of this package do not depend on it);
    - a payload waiter is a state that [Set] and [Wait] change in steps;
      concurrent calls take their steps in some order;
    - [time.Now()] is an input of the functions that read the clock;
    - the effects of a behavior (the calls of the criterion, the emitted
      events, the timers) are returned as a list, in program order;
    - a panic and a blocked operation are [None]. *)

From stdpp Require Import gmap strings list fin_maps.
From Stdlib Require Import ZArith Lia.

#[local] Set Warnings "-register-all".
#[local] Open Scope Z_scope.

(** ** Go runtime notions used by the packages *)

Module golang.

(** Addresses of heap objects. *)
Definition ptr : Type := positive.

(** [int64] arithmetic wraps around. *)
Definition wrap64 (z : Z) : Z := (z + 2 ^ 63) mod 2 ^ 64 - 2 ^ 63.

(** [float64], by its IEEE-754 bit pattern. *)
Record float64 : Type := Float64frombits { Float64bits : Z }.

(** [time.Duration] is an [int64] count of nanoseconds. *)
Definition Duration : Type := Z.
Definition minDuration : Duration := - 2 ^ 63.
Definition maxDuration : Duration := 2 ^ 63 - 1.

(** [time.Time], as the instant it denotes: nanoseconds since the zero
    time.  The location of a [time.Time] is not modelled; [Equal] and
    [Sub] ignore it. *)
Definition Time : Type := Z.

(** [t.Equal(u)]. *)
Definition Time_Equal (t u : Time) : bool := Z.eqb t u.

(** [t.Sub(u)]: the difference, saturated to the range of [Duration]. *)
Definition Time_Sub (t u : Time) : Duration :=
  if t - u <? minDuration then minDuration
  else if maxDuration <? t - u then maxDuration
  else t - u.

(** A buffered channel: the queued elements and the capacity. *)
Record chan (A : Type) : Type := mkchan { chan_buf : list A; chan_cap : nat }.
Arguments mkchan {A} _ _.
Arguments chan_buf {A} _.
Arguments chan_cap {A} _.

(** [make(chan A, n)]. *)
Definition make_chan {A : Type} (n : nat) : chan A := mkchan [] n.

(** [c <- x] can proceed when the buffer has room; [None]: it blocks. *)
Definition chan_send {A : Type} (c : chan A) (x : A) : option (chan A) :=
  if (length (chan_buf c) <? chan_cap c)%nat
  then Some (mkchan (chan_buf c ++ [x]) (chan_cap c))
  else None.

(** [<-c] can proceed when an element is queued; [None]: it blocks. *)
Definition chan_recv {A : Type} (c : chan A) : option (A * chan A) :=
  match chan_buf c with
  | [] => None
  | x :: rest => Some (x, mkchan rest (chan_cap c))
  end.

(** The errors of package [context]. *)
Inductive error : Type := Canceled | DeadlineExceeded.

(** A [context.Context] at the moment it is looked at: [ctx.Err()], which
    is non-nil exactly when the channel [ctx.Done()] is closed. *)
Record Context : Type := mkContext { Err : option error }.

(** [context.Background()] is never done. *)
Definition Background : Context := mkContext None.

End golang.

(** ** Package cells: payload.go *)

Module cells.
Import golang.

(** The dynamic values ([interface{}]) the package handles.  [VPayload]
    is a [Payload] interface value holding a [*payload], [VWaiter] a
    [PayloadWaiter] holding a [*payloadWaiter].  Maps are taken with the
    content they have when they are passed. *)
Inductive value : Type :=
| VNil
| VBool (b : bool)
| VInt (n : Z)
| VInt64 (n : Z)
| VFloat64 (f : float64)
| VString (s : string)
| VTime (t : Time)
| VDuration (d : Duration)
| VStrings (l : list string)
| VWaiter (w : ptr)
| VPayload (p : ptr)
| VPayloadValues (m : gmap string value)
| VMap (m : gmap string value)
| VOther (tag : positive).

(** The dynamic type of a value. *)
Inductive gotype : Type :=
| TNil | TBool | TInt | TInt64 | TFloat64 | TString | TTime | TDuration
| TStrings | TWaiter | TPayload | TPayloadValues | TMap | TOther (tag : positive).

Definition type_of (v : value) : gotype :=
  match v with
  | VNil => TNil
  | VBool _ => TBool
  | VInt _ => TInt
  | VInt64 _ => TInt64
  | VFloat64 _ => TFloat64
  | VString _ => TString
  | VTime _ => TTime
  | VDuration _ => TDuration
  | VStrings _ => TStrings
  | VWaiter _ => TWaiter
  | VPayload _ => TPayload
  | VPayloadValues _ => TPayloadValues
  | VMap _ => TMap
  | VOther tag => TOther tag
  end.

(** [type PayloadValues map[string]interface{}]. *)
Abbreviation PayloadValues := (gmap string value).

(** [type payload struct { values PayloadValues }]. *)
Record payload : Type := mkpayload { values : PayloadValues }.

(** A non-nil [Payload] interface value: the address of a [payload]. *)
Abbreviation Payload := ptr.

(** The heap of [payload] structs. *)
Abbreviation store := (gmap ptr payload).

(** [&payload{values: PayloadValues{}}]: a new struct at an unused
    address. *)
Definition alloc_payload (h : store) : store * ptr :=
  let p := fresh (dom h) in (<[p := mkpayload ∅]> h, p).

(** [p.values[key] = value]. *)
Definition assign (p : ptr) (key : string) (v : value) (h : store) : store :=
  alter (λ pl, mkpayload (<[key := v]> (values pl))) p h.

(** [for key, value := range vs { p.values[key] = value }]. *)
Definition range_assign (p : ptr) (vs : PayloadValues) (h : store) : store :=
  map_fold (assign p) h vs.

(** [Len]. *)
Definition Len (p : payload) : Z := Z.of_nat (size (values p)).

(** [Get]: the value and whether the key is present; the zero value of
    [interface{}] is nil. *)
Definition Get (p : payload) (key : string) : value * bool :=
  match values p !! key with
  | Some v => (v, true)
  | None => (VNil, false)
  end.

Definition GetBool (p : payload) (key : string) : bool * bool :=
  let '(raw, ok) := Get p key in
  if negb ok then (false, ok)
  else match raw with
       | VBool b => (b, true)
       | _ => (false, false)
       end.

Definition GetInt (p : payload) (key : string) : Z * bool :=
  let '(raw, ok) := Get p key in
  if negb ok then (0, ok)
  else match raw with
       | VInt n => (n, true)
       | _ => (0, false)
       end.

Definition GetFloat64 (p : payload) (key : string) : float64 * bool :=
  let '(raw, ok) := Get p key in
  if negb ok then (Float64frombits 0, ok)
  else match raw with
       | VFloat64 f => (f, true)
       | _ => (Float64frombits 0, false)
       end.

Definition GetString (p : payload) (key : string) : string * bool :=
  let '(raw, ok) := Get p key in
  if negb ok then (EmptyString, ok)
  else match raw with
       | VString s => (s, true)
       | _ => (EmptyString, false)
       end.

Definition GetTime (p : payload) (key : string) : Time * bool :=
  let '(raw, ok) := Get p key in
  if negb ok then (0, ok)
  else match raw with
       | VTime t => (t, true)
       | _ => (0, false)
       end.

Definition GetDuration (p : payload) (key : string) : Duration * bool :=
  let '(raw, ok) := Get p key in
  if negb ok then (0, ok)
  else match raw with
       | VDuration d => (d, true)
       | _ => (0, false)
       end.

(** [GetWaiter]: the zero value of the interface [PayloadWaiter] is nil,
    here [None]. *)
Definition GetWaiter (p : payload) (key : string) : option ptr * bool :=
  let '(raw, ok) := Get p key in
  if negb ok then (None, ok)
  else match raw with
       | VWaiter w => (Some w, true)
       | _ => (None, false)
       end.

(** [Keys], in the order of one iteration over the map. *)
Definition Keys (p : payload) : list string := (map_to_list (values p)).*1.

(** [Do]: [f] is run on the entries in turn, on a state [S] it may
    change; the first error it returns ends the iteration and is the
    result. *)
Fixpoint Do_entries {S E : Type} (f : string → value → S → S * option E)
    (entries : list (string * value)) (s : S) : S * option E :=
  match entries with
  | [] => (s, None)
  | (key, v) :: rest =>
      match f key v s with
      | (s', Some err) => (s', Some err)
      | (s', None) => Do_entries f rest s'
      end
  end.

Definition Do {S E : Type} (p : payload) (f : string → value → S → S * option E)
    (s : S) : S * option E :=
  Do_entries f (map_to_list (values p)) s.

Section DefaultPayload.

(** The key of a single value, a constant of the package that this file
    does not declare. *)
Variable DefaultPayload : string.

(** [NewPayload]: the new heap and the payload. *)
Definition NewPayload (h : store) (vals : value) : store * Payload :=
  match vals with
  | VPayload p => (h, p)
  | _ =>
      let '(h, p) := alloc_payload h in
      match vals with
      | VPayloadValues vs => (range_assign p vs h, p)
      | VMap vs => (range_assign p vs h, p)
      | _ => (assign p DefaultPayload vals h, p)
      end
  end.

(** [Apply], on the receiver [p]: the new heap and the new payload.
    [None] stands for the dereference of an address that holds no
    payload, which no Go pointer is. *)
Definition Apply (h : store) (p : Payload) (vals : value) : option (store * Payload) :=
  pl ← h !! p;
  let '(h, applied) := alloc_payload h in
  let h := range_assign applied (values pl) h in
  match vals with
  | VPayload vs =>
      vsl ← h !! vs;
      Some (fst (Do (E := error) vsl (λ key v h, (assign applied key v h, None)) h),
            applied)
  | VPayloadValues vs => Some (range_assign applied vs h, applied)
  | VMap vs => Some (range_assign applied vs h, applied)
  | _ => Some (assign applied DefaultPayload vals h, applied)
  end.

End DefaultPayload.

(** *** The payload waiter *)

(** [type payloadWaiter struct { payloadc chan Payload; once sync.Once }].
    The channel carries [Payload] interface values, nil ([None])
    included; [once] is the done flag of the [sync.Once]. *)
Record payloadWaiter : Type := mkpayloadWaiter {
  payloadc : chan (option Payload);
  once : bool
}.

(** [NewPayloadWaiter]. *)
Definition NewPayloadWaiter : payloadWaiter :=
  mkpayloadWaiter (make_chan 1) false.

(** [Set] (the name is reserved in Rocq, hence the underscore).
    [once.Do] runs the function when the flag is not set and sets it; its
    callers are serialised by the mutex of the [sync.Once], so a call is
    one step.  [None]: the send blocks. *)
Definition Set_ (w : payloadWaiter) (p : option Payload) : option payloadWaiter :=
  if once w then Some w
  else c ← chan_send (payloadc w) p; Some (mkpayloadWaiter c true).

(** What [Wait] returns: the payload and the error, either of them nil. *)
Definition WaitResult : Type := option Payload * option error.

(** The [select] of [Wait], for the waiter and the context as they are
    when it is evaluated: the cases that can proceed, each with what
    [Wait] then returns and the waiter it leaves.  Go chooses one of them
    (at random when both can proceed); when the list is empty the
    [select] blocks until the waiter or the context changes.  A nil
    context is replaced by [context.Background()]. *)
Definition Wait_select (w : payloadWaiter) (ctx : option Context)
    : list (WaitResult * payloadWaiter) :=
  let ctx := default Background ctx in
  match chan_recv (payloadc w) with
  | Some (pl, c) => [((pl, None), mkpayloadWaiter c (once w))]
  | None => []
  end ++
  match Err ctx with
  | Some err => [((None, Some err), w)]
  | None => []
  end.

(** [Wait w ctx r w']: a call of [Wait] with the context [ctx] can return
    [r] when the waiter is [w], leaving the waiter as [w'].  A call that
    is blocked returns later, by this same step, once a case of its
    [select] can proceed; so the calls of [Set] and [Wait] of concurrent
    goroutines amount to a sequence of these steps. *)
Definition Wait (w : payloadWaiter) (ctx : option Context)
    (r : WaitResult) (w' : payloadWaiter) : Prop :=
  (r, w') ∈ Wait_select w ctx.

(** The call of [Wait] is blocked. *)
Definition Wait_blocks (w : payloadWaiter) (ctx : option Context) : Prop :=
  Wait_select w ctx = [].

(** The waiters a program can hold: made by [NewPayloadWaiter] and
    changed by [Set] and [Wait] only (the fields are not exported). *)
Inductive reachable : payloadWaiter → Prop :=
| reachable_new : reachable NewPayloadWaiter
| reachable_Set w p w' : reachable w → Set_ w p = Some w' → reachable w'
| reachable_Wait w ctx r w' : reachable w → Wait w ctx r w' → reachable w'.

(** Modelled from the spec: the interface [Event], declared outside the
    files at hand.  An event exposes [Topic()] and [Payload()]; it is
    never changed after its creation and a behavior only reads its
    payload, so the event carries the [payload] its [Payload()] points
    to. *)
Record Event : Type := mkEvent { Topic : string; EventPayload : payload }.

End cells.

(** ** Package behaviors: the pair behavior *)

Module behaviors_pair.
Import golang cells.

(** The topics and payload keys of the pair behavior, constants of the
    package that the file of the behavior does not declare. *)
Class PairNames : Type := mkPairNames {
  EventPairTopic : string;
  EventPairTimeoutTopic : string;
  EventPairFirstTimePayload : string;
  EventPairFirstDataPayload : string;
  EventPairSecondTimePayload : string;
  EventPairSecondDataPayload : string;
  EventPairTimeoutPayload : string
}.

(** [type PairCriterion func(event cells.Event, hitData interface{})
    (interface{}, bool)], taken to be a function of its arguments. *)
Definition PairCriterion : Type := Event → value → value * bool.

(** The cell of a behavior, by its identifier [ID()]. *)
Definition Cell : Type := string.

(** A [*time.Timer] made by [time.AfterFunc(d, f)], by what it does: after
    [timer_d] it runs [Environment().EmitNew(timer_cell, timer_topic,
    timer_values)]. *)
Record Timer : Type := mkTimer {
  timer_d : Duration;
  timer_cell : option Cell;
  timer_topic : string;
  timer_values : PayloadValues
}.

(** What a behavior does to its surroundings. *)
Inductive effect : Type :=
| CallMatches (event : Event) (hitData : value)
| CellEmitNew (c : Cell) (topic : string) (vals : PayloadValues)
| AfterFunc (t : Timer)
| TimerStop (t : Timer).

(** [type pairBehavior struct]. *)
Record pairBehavior : Type := mkpairBehavior {
  cell : option Cell;
  matches : PairCriterion;
  duration : Duration;
  hit : option Time;
  hitData : value;
  timeout : option Timer
}.

Definition set_cell (c : option Cell) (b : pairBehavior) : pairBehavior :=
  mkpairBehavior c (matches b) (duration b) (hit b) (hitData b) (timeout b).
Definition set_hit (t : option Time) (b : pairBehavior) : pairBehavior :=
  mkpairBehavior (cell b) (matches b) (duration b) t (hitData b) (timeout b).
Definition set_hitData (d : value) (b : pairBehavior) : pairBehavior :=
  mkpairBehavior (cell b) (matches b) (duration b) (hit b) d (timeout b).
Definition set_timeout (t : option Timer) (b : pairBehavior) : pairBehavior :=
  mkpairBehavior (cell b) (matches b) (duration b) (hit b) (hitData b) t.

(** [NewPairBehavior]. *)
Definition NewPairBehavior (matches : PairCriterion) (duration : Duration)
    : pairBehavior :=
  mkpairBehavior None matches duration None VNil None.

(** [Init]. *)
Definition Init (b : pairBehavior) (c : Cell) : pairBehavior :=
  set_cell (Some c) b.

Section Pair.
Context `{PairNames}.

(** [emitPair]: the behavior afterwards and the effects.  [None] is the
    panic of a nil dereference ([b.cell] or [*b.hit]). *)
Definition emitPair (b : pairBehavior) (timestamp : Time) (data : value)
    : option (pairBehavior * list effect) :=
  c ← cell b;
  bhit ← hit b;
  Some (set_hit None b,
        [CellEmitNew c EventPairTopic
           (<[EventPairFirstTimePayload := VTime bhit]>
            (<[EventPairFirstDataPayload := hitData b]>
             (<[EventPairSecondTimePayload := VTime timestamp]>
              (<[EventPairSecondDataPayload := data]> ∅))))]).

(** [emitTimeout]; [now] is what its [time.Now()] reads. *)
Definition emitTimeout (b : pairBehavior) (now : Time)
    : option (pairBehavior * list effect) :=
  c ← cell b;
  bhit ← hit b;
  Some (set_hit None b,
        [CellEmitNew c EventPairTimeoutTopic
           (<[EventPairFirstTimePayload := VTime bhit]>
            (<[EventPairFirstDataPayload := hitData b]>
             (<[EventPairTimeoutPayload := VTime now]> ∅)))]).

(** [ProcessEvent]: the behavior afterwards and the effects, in program
    order.  [now] is what the [time.Now()] of [ProcessEvent] reads and
    [tnow] what the one of [emitTimeout] reads, when they are called.  The
    error that [ProcessEvent] returns is always nil; [None] is a panic. *)
Definition ProcessEvent (b : pairBehavior) (event : Event) (now tnow : Time)
    : option (pairBehavior * list effect) :=
  if String.eqb (Topic event) EventPairTimeoutTopic then
    match hit b, timeout b with
    | Some bhit, Some _ =>
        let '(ehit, ok) := GetTime (EventPayload event) EventPairFirstTimePayload in
        if ok && Time_Equal ehit bhit then
          '(b, effs) ← emitTimeout b tnow;
          Some (set_timeout None b, effs)
        else Some (b, [])
    | _, _ => Some (b, [])
    end
  else
    let '(data, ok) := matches b event (hitData b) in
    let called := [CallMatches event (hitData b)] in
    if ok then
      match hit b with
      | None =>
          let t := mkTimer (duration b) (cell b) EventPairTimeoutTopic
                     (<[EventPairFirstTimePayload := VTime now]> ∅) in
          Some (set_timeout (Some t) (set_hitData data (set_hit (Some now) b)),
                called ++ [AfterFunc t])
      | Some bhit =>
          t ← timeout b;
          let b := set_timeout None b in
          '(b, effs) ← (if duration b <? Time_Sub now bhit
                        then emitTimeout b tnow
                        else emitPair b now data);
          Some (b, called ++ [TimerStop t] ++ effs)
      end
    else Some (b, called).

End Pair.

End behaviors_pair.

(** ** Package behaviors: the counter behavior *)

Module behaviors_counter.
Import golang cells.

(** Modelled from the spec: the reserved topics of the counter behavior
    and the payload key under which a request carries its waiter; the
    spec names the topics Reset and Request and gives none of the three
    strings. *)
Class CounterNames : Type := mkCounterNames {
  TopicReset : string;
  TopicRequest : string;
  PayloadWaiterKey : string
}.

(** The heap of [payloadWaiter] structs. *)
Abbreviation waiters := (gmap ptr payloadWaiter).

(** Modelled from the spec: the state of a counter behavior, which the
    files at hand do not contain: the key function it is constructed
    from and the mapping from key to a 64-bit counter. *)
Record counterBehavior : Type := mkcounterBehavior {
  counterFunc : string → Event → list string;
  counters : gmap string Z
}.

(** Modelled from the spec: the constructor of the counter behavior; the
    mapping is empty on creation. *)
Definition NewCounterBehavior (cf : string → Event → list string) : counterBehavior :=
  mkcounterBehavior cf ∅.

(** Modelled from the spec: the increment of the counter of one key; the
    entry is created on the first occurrence of the key, and the counter
    is an [int64]. *)
Definition increment (cs : gmap string Z) (key : string) : gmap string Z :=
  <[key := wrap64 (default 0 (cs !! key) + 1)]> cs.

Section Counter.
Context `{CounterNames}.
Variable DefaultPayload : string.

(** Modelled from the spec: the event handler of the counter behavior,
    which the files at hand do not contain.  Reset clears the counters; a
    request builds a payload of the whole mapping and deposits it with
    [Set] in the waiter its payload carries; any other event increments
    the counter of every key the key function returns, once per
    occurrence.  The handler runs in the cell [id], on the heaps [h] of
    payloads and [ws] of waiters; [None] is a [Set] that blocks or a
    waiter that is not in the heap. *)
Definition ProcessEvent (id : string) (b : counterBehavior) (h : store) (ws : waiters)
    (event : Event) : option (counterBehavior * store * waiters) :=
  if String.eqb (Topic event) TopicReset then
    Some (mkcounterBehavior (counterFunc b) ∅, h, ws)
  else if String.eqb (Topic event) TopicRequest then
    match GetWaiter (EventPayload event) PayloadWaiterKey with
    | (Some wp, true) =>
        let '(h, p) := NewPayload DefaultPayload h (VPayloadValues (VInt64 <$> counters b)) in
        w ← ws !! wp;
        w ← Set_ w (Some p);
        Some (b, h, <[wp := w]> ws)
    | _ => Some (b, h, ws)
    end
  else
    Some (mkcounterBehavior (counterFunc b)
            (foldl increment (counters b) (counterFunc b id event)), h, ws).

(** Modelled from the spec: the mesh wraps the raw values of [EmitNew]
    into a payload by the rules of [NewPayload] and delivers the event to
    the behavior. *)
Definition EmitNew (id : string) (b : counterBehavior) (h : store) (ws : waiters)
    (topic : string) (raw : value) : option (counterBehavior * store * waiters) :=
  let '(h, p) := NewPayload DefaultPayload h raw in
  pl ← h !! p;
  ProcessEvent id b h ws (mkEvent topic pl).

(** The mapping a payload of counters stands for. *)
Definition counters_of (pl : payload) : gmap string Z :=
  omap (λ v, match v with VInt64 n => Some n | _ => None end) (values pl).

(** Modelled from the spec: the synchronous snapshot helper, which emits
    a request carrying a new waiter and waits on it.  The result lists
    what the call can return, by the cases of the [select] of [Wait] that
    can proceed once the behavior has handled the request: the mapping or
    the error, with the heaps afterwards. *)
Definition RequestSnapshot (ctx : option Context) (id : string) (b : counterBehavior)
    (h : store) (ws : waiters)
    : option (list ((option (gmap string Z) * option error) * (store * waiters))) :=
  let wp := fresh (dom ws) in
  let ws := <[wp := NewPayloadWaiter]> ws in
  '(_, h, ws) ← EmitNew id b h ws TopicRequest
                  (VPayloadValues (<[PayloadWaiterKey := VWaiter wp]> ∅));
  w ← ws !! wp;
  Some ((λ '((pl, err), w'),
          ((p ← pl; pl ← h !! p; Some (counters_of pl), err), (h, <[wp := w']> ws)))
        <$> Wait_select w ctx).

End Counter.

(** The key function of the unit test of the counter behavior: the list
    of strings the event carries as its single value. *)
Definition cf (DefaultPayload : string) (id : string) (event : Event) : list string :=
  match Get (EventPayload event) DefaultPayload with
  | (VStrings l, true) => l
  | _ => []
  end.

End behaviors_counter.

(** ** Notions of the specification *)

Module spec.
Import golang cells behaviors_pair.

(** The entries an argument of [Apply] contributes, in the words of the
    specification: those of a payload or of a mapping, and for any other
    value the single entry of that value under the default key. *)
Definition argument_entries (DefaultPayload : string) (h : store) (vals : value)
    : PayloadValues :=
  match vals with
  | VPayload vs => from_option values ∅ (h !! vs)
  | VPayloadValues vs => vs
  | VMap vs => vs
  | _ => {[DefaultPayload := vals]}
  end.

(** An argument that is a payload points to a payload of the heap, as
    every Go pointer does. *)
Definition valid_argument (h : store) (vals : value) : Prop :=
  match vals with
  | VPayload vs => is_Some (h !! vs)
  | _ => True
  end.

(** The states of a pair behavior in a cell: the timer is pending
    exactly when a hit is. *)
Definition pair_inv (b : pairBehavior) : Prop :=
  is_Some (cell b) ∧ (hit b = None ↔ timeout b = None).

End spec.

(** ** Concrete inputs *)

Module examples.
Import golang cells behaviors_pair.

(** Strings for the constants of the pair behavior, different from each
    other as the constants are. *)
Definition names : PairNames :=
  mkPairNames "pair" "pair-timeout" "pair:first-time" "pair:first-data"
    "pair:second-time" "pair:second-data" "pair:timeout".

(** A criterion that every event matches, with the topic of the event as
    its data. *)
Definition every_event : PairCriterion :=
  λ event _, (VString (Topic event), true).

(** A behavior with a window of 100ns, started in the cell [c]. *)
Definition idle : pairBehavior := Init (NewPairBehavior every_event 100) "c".

(** An event of topic [a]. *)
Definition event_a : Event := mkEvent "a" (mkpayload ∅).

(** The timer of a first hit at the instant 10. *)
Definition timer_10 : Timer :=
  mkTimer 100 (Some "c") "pair-timeout" {[ "pair:first-time" := VTime 10 ]}.

(** The behavior after a first hit of [event_a] at the instant 10. *)
Definition pending : pairBehavior :=
  mkpairBehavior (Some "c") every_event 100 (Some 10) (VString "a") (Some timer_10).

(** The behavior after the pair of that hit is emitted. *)
Definition resolved : pairBehavior :=
  mkpairBehavior (Some "c") every_event 100 None (VString "a") None.

(** A timeout event for a hit at the instant 5. *)
Definition stale_timeout : Event :=
  mkEvent "pair-timeout" (mkpayload {[ "pair:first-time" := VTime 5 ]}).

(** Strings for the reserved topics of the counter behavior and for the
    key of the waiter. *)
Definition counter_names : behaviors_counter.CounterNames :=
  behaviors_counter.mkCounterNames "reset" "request" "waiter".

(** The events of the unit test of the counter behavior: the mesh wraps
    the list of strings of [EmitNew] in a payload, under the default
    key; the reset event carries nil. *)
Definition count_event (l : list string) : Event :=
  mkEvent "count" (mkpayload {[ "default" := VStrings l ]}).

Definition reset_event : Event :=
  mkEvent "reset" (mkpayload {[ "default" := VNil ]}).

End examples.

(** ** Runs *)

Module runs.
Import golang cells behaviors_pair.

(** A call on a payload waiter: [Set] with its payload, or [Wait] with
    its context and with what it returned. *)
Inductive call : Type :=
| CallSet (p : option Payload)
| CallWait (ctx : option Context) (r : WaitResult).

(** [run w calls w']: the calls, in the order in which they take their
    step, lead from the waiter [w] to the waiter [w']. *)
Inductive run : payloadWaiter → list call → payloadWaiter → Prop :=
| run_nil w : run w [] w
| run_Set w p w1 calls w' :
    Set_ w p = Some w1 → run w1 calls w' → run w (CallSet p :: calls) w'
| run_Wait w ctx r w1 calls w' :
    Wait w ctx r w1 → run w1 calls w' → run w (CallWait ctx r :: calls) w'.

(** A waiter that holds the payload [p], and a waiter whose payload was
    received. *)
Definition holding (p : option Payload) : payloadWaiter :=
  mkpayloadWaiter (mkchan [p] 1) true.
Definition emptied : payloadWaiter := mkpayloadWaiter (mkchan [] 1) true.

(** The payloads passed to [Set], in order. *)
Definition deposited (calls : list call) : list (option Payload) :=
  omap (λ c, match c with CallSet p => Some p | CallWait _ _ => None end) calls.

(** The payloads that calls of [Wait] returned with a nil error, in
    order. *)
Definition received (calls : list call) : list (option Payload) :=
  omap (λ c, match c with
             | CallWait _ (pl, None) => Some pl
             | _ => None
             end) calls.

(** The events a behavior emitted by [b.cell.EmitNew], in order. *)
Definition emitted (effs : list effect) : list (Cell * string * PayloadValues) :=
  omap (λ eff, match eff with
               | CellEmitNew c topic vals => Some (c, topic, vals)
               | _ => None
               end) effs.

(** The events with which a behavior called its criterion, in order. *)
Definition criterion_calls (effs : list effect) : list Event :=
  omap (λ eff, match eff with CallMatches event _ => Some event | _ => None end) effs.

(** The timers a behavior started, in order. *)
Definition started (effs : list effect) : list Timer :=
  omap (λ eff, match eff with AfterFunc t => Some t | _ => None end) effs.

(** One if a hit is pending. *)
Definition pending_hits (b : pairBehavior) : nat :=
  match hit b with Some _ => 1%nat | None => 0%nat end.

Section Runs.
Context `{PairNames}.

(** The events handled one after the other, each with the readings of
    the clock of its handling; the effects of all of them, in order. *)
Fixpoint run_events (b : pairBehavior) (inputs : list (Event * Time * Time))
    : option (pairBehavior * list effect) :=
  match inputs with
  | [] => Some (b, [])
  | (event, now, tnow) :: rest =>
      '(b, effs) ← ProcessEvent b event now tnow;
      '(b', effs') ← run_events b rest;
      Some (b', effs ++ effs')
  end.

(** Modelled from the spec: the event the mesh delivers when a timer
    fires.  The function of the timer calls [EmitNew] of the
    environment, which wraps the values in a payload by the rules of
    [NewPayload]; the heap afterwards and the event. *)
Definition timer_event (DefaultPayload : string) (h : store) (t : Timer)
    : store * option Event :=
  let '(h, p) := NewPayload DefaultPayload h (VPayloadValues (timer_values t)) in
  (h, pl ← h !! p; Some (mkEvent (timer_topic t) pl)).

End Runs.

End runs.

(** ** More concrete inputs *)

Module examples_more.
Import golang cells behaviors_pair runs examples.

(** A heap with the payload [{a: 1, b: true}] at the address 1. *)
Definition heap_1 : store :=
  {[ 1%positive := mkpayload {[ "a" := VInt 1; "b" := VBool true ]} ]}.

(** A heap with an empty payload at the address 1. *)
Definition heap_empty_1 : store := {[ 1%positive := mkpayload ∅ ]}.

(** A criterion that no event matches. *)
Definition no_event : PairCriterion := λ _ _, (VNil, false).

(** A behavior with that criterion, started in the cell [c]. *)
Definition deaf : pairBehavior := Init (NewPairBehavior no_event 100) "c".

(** An event of topic [b]. *)
Definition event_b : Event := mkEvent "b" (mkpayload ∅).

(** The event of the reminder of a hit at the instant 10. *)
Definition reminder_10 : Event :=
  mkEvent "pair-timeout" (mkpayload {[ "pair:first-time" := VTime 10 ]}).

(** Calls on a waiter: two deposits, a wait that is cancelled and a wait
    that receives. *)
Definition calls_1 : list call :=
  [CallWait (Some (mkContext (Some Canceled))) (None, Some Canceled);
   CallSet (Some 1%positive);
   CallSet (Some 2%positive);
   CallWait None (Some 1%positive, None)].

End examples_more.

(** * Properties *)

Import golang cells spec.

(** ** Writes to the heap of payloads *)

Section Heap.
Implicit Types (h : store) (p q : ptr) (vs : PayloadValues) (pl : payload).

Lemma alloc_payload_fresh h : h !! (alloc_payload h).2 = None.
Proof. apply not_elem_of_dom, is_fresh. Qed.

Lemma alloc_payload_lookup h :
  (alloc_payload h).1 !! (alloc_payload h).2 = Some (mkpayload ∅).
Proof. apply lookup_insert_eq. Qed.

Lemma alloc_payload_other h q :
  q ≠ (alloc_payload h).2 → (alloc_payload h).1 !! q = h !! q.
Proof. intros Hq. by apply lookup_insert_ne. Qed.

Lemma assign_other p key v h q : q ≠ p → assign p key v h !! q = h !! q.
Proof. intros Hq. by apply lookup_alter_ne. Qed.

Lemma assign_lookup p key v h pl :
  h !! p = Some pl → assign p key v h !! p = Some (mkpayload (<[key := v]> (values pl))).
Proof. intros Hp. unfold assign. by rewrite lookup_alter_eq, Hp. Qed.

Lemma range_assign_other p vs h q : q ≠ p → range_assign p vs h !! q = h !! q.
Proof.
  intros Hq. unfold range_assign.
  apply (map_fold_weak_ind (λ r _, r !! q = h !! q)); [done|].
  intros key v m r _ IH. by rewrite assign_other.
Qed.

(** A loop of assignments overlays the entries of [vs] on the map of the
    target. *)
Lemma range_assign_lookup p vs h pl :
  h !! p = Some pl →
  range_assign p vs h !! p = Some (mkpayload (vs ∪ values pl)).
Proof.
  intros Hp. unfold range_assign.
  apply (map_fold_weak_ind (λ r m, r !! p = Some (mkpayload (m ∪ values pl)))).
  - by rewrite (left_id_L ∅ (∪)), Hp; destruct pl.
  - intros key v m r _ IH.
    rewrite (assign_lookup _ _ _ _ _ IH). simpl.
    by rewrite insert_union_l.
Qed.

(** [Do] with a function that returns no error visits every entry. *)
Lemma Do_entries_no_error {S : Type} (g : string → value → S → S)
    (entries : list (string * value)) (s : S) :
  Do_entries (E := error) (λ key v s, (g key v s, None)) entries s
  = (foldl (λ s kv, g kv.1 kv.2 s) s entries, None).
Proof.
  revert s. induction entries as [|[key v] rest IH]; intros s; simpl; [done|].
  apply IH.
Qed.

Lemma foldl_assign_other p (entries : list (string * value)) h q :
  q ≠ p → foldl (λ h kv, assign p kv.1 kv.2 h) h entries !! q = h !! q.
Proof.
  intros Hq. revert h. induction entries as [|[key v] rest IH]; intros h; simpl; [done|].
  by rewrite IH, assign_other.
Qed.

Lemma foldl_assign_lookup p (entries : list (string * value)) h pl :
  NoDup entries.*1 →
  h !! p = Some pl →
  foldl (λ h kv, assign p kv.1 kv.2 h) h entries !! p
  = Some (mkpayload (list_to_map entries ∪ values pl)).
Proof.
  revert h pl. induction entries as [|[key v] rest IH]; intros h pl Hnd Hp; simpl.
  - by rewrite (left_id_L ∅ (∪)), Hp; destruct pl.
  - rewrite fmap_cons in Hnd. apply NoDup_cons in Hnd as [Hkey Hnd].
    simpl in Hkey.
    rewrite (IH _ _ Hnd (assign_lookup _ key v _ _ Hp)). simpl.
    do 2 f_equal. apply map_eq. intros i.
    rewrite !lookup_union.
    destruct (decide (key = i)) as [<-|Hne].
    + rewrite !lookup_insert_eq.
      rewrite (not_elem_of_list_to_map_1 _ _ Hkey).
      by destruct (values pl !! key).
    + by rewrite !lookup_insert_ne.
Qed.

(** The same for the iteration of [Do] over a payload. *)
Lemma Do_assign_other p pl h q :
  q ≠ p →
  (Do (E := error) pl (λ key v h, (assign p key v h, None)) h).1 !! q = h !! q.
Proof.
  intros Hq. unfold Do. rewrite Do_entries_no_error. simpl.
  by apply foldl_assign_other.
Qed.

Lemma Do_assign_lookup p pl h tl :
  h !! p = Some tl →
  (Do (E := error) pl (λ key v h, (assign p key v h, None)) h).1 !! p
  = Some (mkpayload (values pl ∪ values tl)).
Proof.
  intros Hp. unfold Do. rewrite Do_entries_no_error. simpl.
  rewrite (foldl_assign_lookup _ _ _ _ (NoDup_fst_map_to_list _) Hp).
  by rewrite list_to_map_to_list.
Qed.

End Heap.

(** ** The payload *)

Section PayloadProps.
Variable DefaultPayload : string.
Implicit Types (h : store) (p q : ptr) (pl : payload) (vals : value).

(** C6. [Apply] leaves the receiver, and every payload that existed, as
    it was; it returns a payload at a new address whose entries are those
    of the receiver overlaid with those of the argument: the key set is
    the union of the two key sets, a key of the argument has the value of
    the argument, any other key the value of the receiver.  An argument
    that is no payload and no mapping contributes one entry under the
    default key ([argument_entries]). *)
Theorem Apply_overlays_fresh h p pl vals :
  h !! p = Some pl →
  valid_argument h vals →
  ∃ h' applied al,
    Apply DefaultPayload h p vals = Some (h', applied)
    ∧ h !! applied = None
    ∧ (∀ q, q ≠ applied → h' !! q = h !! q)
    ∧ h' !! p = Some pl
    ∧ h' !! applied = Some al
    ∧ dom (values al) = dom (values pl) ∪ dom (argument_entries DefaultPayload h vals)
    ∧ (∀ key v, argument_entries DefaultPayload h vals !! key = Some v →
                values al !! key = Some v)
    ∧ (∀ key, argument_entries DefaultPayload h vals !! key = None →
              values al !! key = values pl !! key).
Proof.
  intros Hp Hvalid.
  pose proof (alloc_payload_fresh h) as Hfresh.
  pose proof (alloc_payload_lookup h) as Hnew.
  pose proof (alloc_payload_other h) as Hold.
  unfold Apply. rewrite Hp. simpl.
  unfold alloc_payload in Hfresh, Hnew, Hold. simpl in Hfresh, Hnew, Hold.
  set (applied := fresh (dom h)) in *.
  set (h1 := <[applied := mkpayload ∅]> h) in *.
  assert (Hne : p ≠ applied) by congruence.
  pose proof (range_assign_lookup applied (values pl) h1 _ Hnew) as Hbase.
  simpl in Hbase. rewrite (right_id_L ∅ (∪)) in Hbase.
  assert (Hframe : ∀ q, q ≠ applied →
            range_assign applied (values pl) h1 !! q = h !! q).
  { intros q Hq. rewrite range_assign_other by done. by apply Hold. }
  set (h2 := range_assign applied (values pl) h1) in *.
  (* the heap and the entries after the switch *)
  match goal with
  | |- ∃ _ _ _, ?switch = _ ∧ _ =>
      assert (∃ h', switch = Some (h', applied)
        ∧ (∀ q, q ≠ applied → h' !! q = h !! q)
        ∧ h' !! applied
          = Some (mkpayload (argument_entries DefaultPayload h vals ∪ values pl)))
        as (h' & Hswitch & Hother & Happlied)
  end.
  { unfold valid_argument in Hvalid.
    destruct vals as [| | | | | | | | | |vs|vs|vs|]; simpl;
      try (eexists; split; [reflexivity|]; split;
           [ intros q Hq; rewrite ?assign_other, ?range_assign_other by done;
             by apply Hframe
           | first [ rewrite (range_assign_lookup _ _ _ _ Hbase); simpl; reflexivity
                   | rewrite (assign_lookup _ _ _ _ _ Hbase); simpl;
                     by rewrite insert_union_singleton_l ] ]).
    destruct Hvalid as [vsl Hvs].
    assert (vs ≠ applied) as Hvsne by congruence.
    rewrite (Hframe _ Hvsne), Hvs. simpl.
    eexists; split; [reflexivity|]; split.
    - intros q Hq. rewrite Do_assign_other by done. by apply Hframe.
    - by rewrite (Do_assign_lookup _ _ _ _ Hbase). }
  exists h', applied, (mkpayload (argument_entries DefaultPayload h vals ∪ values pl)).
  split; [done|]. split; [done|]. split; [done|].
  split; [by rewrite Hother|]. split; [done|]. simpl.
  split; [by rewrite dom_union_L, (comm_L (∪))|]. split.
  - intros key v Hkey. by apply lookup_union_Some_l.
  - intros key Hkey. by rewrite lookup_union_r.
Qed.

(** C10. [NewPayload] of a value that is a payload returns that payload,
    at its address, and changes nothing in the heap; so [NewPayload] of
    the result of [NewPayload] is that result. *)
Theorem NewPayload_idempotent h p vals :
  NewPayload DefaultPayload h (VPayload p) = (h, p)
  ∧ NewPayload DefaultPayload (NewPayload DefaultPayload h vals).1
      (VPayload (NewPayload DefaultPayload h vals).2)
    = NewPayload DefaultPayload h vals.
Proof.
  split; [reflexivity|].
  by destruct (NewPayload DefaultPayload h vals) as [h' p'].
Qed.

(** A value that is no payload is wrapped in a newly allocated payload:
    the entries of a mapping, or the value under the default key. *)
Lemma NewPayload_wraps h vals :
  type_of vals ≠ TPayload →
  h !! (NewPayload DefaultPayload h vals).2 = None
  ∧ (NewPayload DefaultPayload h vals).1 !! (NewPayload DefaultPayload h vals).2
    = Some (mkpayload (argument_entries DefaultPayload h vals))
  ∧ ∀ q, q ≠ (NewPayload DefaultPayload h vals).2 →
         (NewPayload DefaultPayload h vals).1 !! q = h !! q.
Proof.
  intros Hty.
  pose proof (alloc_payload_fresh h) as Hfresh.
  pose proof (alloc_payload_lookup h) as Hnew.
  pose proof (alloc_payload_other h) as Hold.
  unfold alloc_payload in Hfresh, Hnew, Hold. simpl in Hfresh, Hnew, Hold.
  destruct vals; try done; simpl; (split; [done|]); split;
    try (intros q Hq; rewrite ?assign_other, ?range_assign_other by done;
         by apply Hold);
    first [ rewrite (range_assign_lookup _ _ _ _ Hnew); simpl;
            by rewrite (right_id_L ∅ (∪))
          | by rewrite (assign_lookup _ _ _ _ _ Hnew) ].
Qed.

End PayloadProps.

(** C6 at a payload [{a: 1, b: true}] to which the mapping [{b: "x"}] is
    applied. *)
Lemma Apply_overlays_fresh_witness :
  let h : store := {[ 1%positive := mkpayload {[ "a" := VInt 1; "b" := VBool true ]} ]} in
  ∃ h' applied al,
    Apply "default" h 1%positive (VPayloadValues {[ "b" := VString "x" ]})
    = Some (h', applied)
    ∧ h' !! 1%positive = Some (mkpayload {[ "a" := VInt 1; "b" := VBool true ]})
    ∧ h' !! applied = Some al
    ∧ values al !! "b" = Some (VString "x")
    ∧ values al !! "a" = Some (VInt 1).
Proof.
  intros h.
  destruct (Apply_overlays_fresh "default" h 1%positive
              (mkpayload {[ "a" := VInt 1; "b" := VBool true ]})
              (VPayloadValues {[ "b" := VString "x" ]}))
    as (h' & applied & al & HApply & _ & _ & Hp & Hal & _ & Harg & Hrecv).
  - reflexivity.
  - exact I.
  - exists h', applied, al. split; [exact HApply|]. split; [exact Hp|].
    split; [exact Hal|]. split.
    + apply Harg. reflexivity.
    + rewrite Hrecv; reflexivity.
Defined.

(** ** The typed accessors *)

Section Accessors.
Implicit Types (p : payload) (key : string) (v : value).

(** C7. Every typed accessor returns the zero value of its type and the
    flag [false] when the key is absent, and also when the key holds a
    value whose dynamic type is not the type of the accessor; so [GetInt]
    of a key that holds a string returns [(0, false)], as it does for an
    absent key. *)
Theorem typed_accessors_strict p key :
  (values p !! key = None →
     GetBool p key = (false, false)
     ∧ GetInt p key = (0, false)
     ∧ GetFloat64 p key = (Float64frombits 0, false)
     ∧ GetString p key = (EmptyString, false)
     ∧ GetTime p key = (0, false)
     ∧ GetDuration p key = (0, false)
     ∧ GetWaiter p key = (None, false))
  ∧ (∀ v, values p !! key = Some v →
       (type_of v ≠ TBool → GetBool p key = (false, false))
       ∧ (type_of v ≠ TInt → GetInt p key = (0, false))
       ∧ (type_of v ≠ TFloat64 → GetFloat64 p key = (Float64frombits 0, false))
       ∧ (type_of v ≠ TString → GetString p key = (EmptyString, false))
       ∧ (type_of v ≠ TTime → GetTime p key = (0, false))
       ∧ (type_of v ≠ TDuration → GetDuration p key = (0, false))
       ∧ (type_of v ≠ TWaiter → GetWaiter p key = (None, false)))
  ∧ (∀ s, values p !! key = Some (VString s) →
       GetInt p key = (0, false)
       ∧ ∀ p', values p' !! key = None → GetInt p' key = GetInt p key).
Proof.
  unfold GetBool, GetInt, GetFloat64, GetString, GetTime, GetDuration,
    GetWaiter, Get.
  split; [|split].
  - intros ->. by repeat split.
  - intros v ->. simpl. by repeat split; intros Hty; destruct v.
  - intros s ->. simpl. split; [done|]. by intros p' ->.
Qed.

(** A value of the type of the accessor is returned with the flag
    [true]. *)
Lemma typed_accessors_found p key :
  (∀ b, values p !! key = Some (VBool b) → GetBool p key = (b, true))
  ∧ (∀ n, values p !! key = Some (VInt n) → GetInt p key = (n, true))
  ∧ (∀ f, values p !! key = Some (VFloat64 f) → GetFloat64 p key = (f, true))
  ∧ (∀ s, values p !! key = Some (VString s) → GetString p key = (s, true))
  ∧ (∀ t, values p !! key = Some (VTime t) → GetTime p key = (t, true))
  ∧ (∀ d, values p !! key = Some (VDuration d) → GetDuration p key = (d, true))
  ∧ (∀ w, values p !! key = Some (VWaiter w) → GetWaiter p key = (Some w, true)).
Proof.
  unfold GetBool, GetInt, GetFloat64, GetString, GetTime, GetDuration,
    GetWaiter, Get.
  by repeat split; intros ? ->.
Qed.

End Accessors.

(** C7 at the payload [{k: "seven"}]: [GetInt] of [k] is [(0, false)], as
    for the key [j] that is absent; the other accessors that are not
    [GetString] fail on [k] as well. *)
Lemma typed_accessors_strict_witness :
  let p := mkpayload {[ "k" := VString "seven" ]} in
  GetInt p "k" = (0, false)
  ∧ GetInt p "j" = (0, false)
  ∧ GetBool p "k" = (false, false)
  ∧ GetDuration p "k" = (0, false).
Proof.
  intros p.
  destruct (typed_accessors_strict p "k") as (_ & Hmismatch & Hstring).
  destruct (typed_accessors_strict p "j") as (Habsent & _ & _).
  destruct (Hmismatch (VString "seven")) as (HBool & _ & _ & _ & _ & HDuration & _);
    [reflexivity|].
  split; [exact (proj1 (Hstring "seven" eq_refl))|].
  split; [apply (Habsent eq_refl)|].
  split; [apply HBool; discriminate|apply HDuration; discriminate].
Defined.

(** ** The payload waiter *)

Section Waiter.
Implicit Types (w : payloadWaiter) (p q : option Payload) (ctx : option Context).

(** The channel of a waiter has capacity one; it is empty as long as
    [Set] has not run, and holds at most the one payload. *)
Lemma reachable_inv w :
  reachable w →
  chan_cap (payloadc w) = 1%nat
  ∧ (once w = false → chan_buf (payloadc w) = [])
  ∧ (length (chan_buf (payloadc w)) ≤ 1)%nat.
Proof.
  induction 1 as [|w p w' _ (Hcap & Hempty & Hlen) HSet
                  |w ctx r w' _ (Hcap & Hempty & Hlen) HWait].
  - simpl. auto.
  - unfold Set_ in HSet. destruct (once w) eqn:Honce.
    + injection HSet as <-. rewrite Honce. auto.
    + unfold chan_send in HSet. rewrite (Hempty eq_refl), Hcap in HSet.
      simpl in HSet. injection HSet as <-. simpl.
      split; [done|]. split; [done|lia].
  - unfold Wait, Wait_select, chan_recv in HWait.
    destruct (chan_buf (payloadc w)) as [|pl rest] eqn:Hbuf;
      destruct (Err (default Background ctx)); simpl in HWait;
      repeat (apply elem_of_cons in HWait as [[= -> ->]|HWait]);
      try (by apply elem_of_nil in HWait); simpl; try by rewrite ?Hbuf.
    all: split; [done|]; simpl in Hlen; split; [|lia];
      intros _; destruct rest; [done|simpl in Hlen; lia].
Qed.

(** [Set] does not block. *)
Lemma Set_returns w p : reachable w → is_Some (Set_ w p).
Proof.
  intros (Hcap & Hempty & _)%reachable_inv. unfold Set_, chan_send.
  destruct (once w); [done|]. by rewrite (Hempty eq_refl), Hcap.
Qed.



(** The first [Set] puts its payload in the channel. *)
Lemma Set_first w p :
  reachable w → once w = false →
  Set_ w p = Some (mkpayloadWaiter (mkchan [p] 1) true).
Proof.
  intros (Hcap & Hempty & _)%reachable_inv Honce. unfold Set_, chan_send.
  by rewrite Honce, (Hempty Honce), Hcap.
Qed.

(** The outcomes of [Wait] on a waiter that holds a payload. *)
Lemma Wait_select_full p ctx :
  Wait_select (mkpayloadWaiter (mkchan [p] 1) true) ctx
  = ((p, None), mkpayloadWaiter (mkchan [] 1) true)
    :: match Err (default Background ctx) with
       | Some err => [((None, Some err), mkpayloadWaiter (mkchan [p] 1) true)]
       | None => []
       end.
Proof. reflexivity. Qed.

(** The outcomes of [Wait] on a waiter whose channel is empty. *)
Lemma Wait_select_empty b ctx :
  Wait_select (mkpayloadWaiter (mkchan [] 1) b) ctx
  = match Err (default Background ctx) with
    | Some err => [((None, Some err), mkpayloadWaiter (mkchan [] 1) b)]
    | None => []
    end.
Proof. reflexivity. Qed.

(** [Wait] is blocked exactly when the channel is empty and the context
    is not done. *)
Lemma Wait_blocks_iff w ctx :
  Wait_blocks w ctx
  ↔ chan_buf (payloadc w) = [] ∧ Err (default Background ctx) = None.
Proof.
  unfold Wait_blocks, Wait_select, chan_recv.
  destruct (chan_buf (payloadc w)), (Err (default Background ctx)); simpl;
    split; try done; by intros [? ?].
Qed.


(** C1, as the code has it.  The [Wait] that receives the payload takes
    it out of the channel: on a waiter on which the first [Set] has
    deposited [p], a [Wait] with a context that is not done returns [p]
    and no error and leaves the channel empty.  A later [Set] does not
    fill it again, and a later [Wait] on that waiter returns no payload:
    it blocks while its context is not done and returns the error of the
    context otherwise. *)
Theorem Wait_takes_the_payload w p :
  reachable w → once w = false →
  ∃ w1 w2,
    Set_ w p = Some w1
    ∧ (∀ ctx, Err (default Background ctx) = None →
              Wait_select w1 ctx = [((p, None), w2)])
    ∧ chan_buf (payloadc w2) = []
    ∧ (∀ q, Set_ w2 q = Some w2)
    ∧ (∀ ctx, Err (default Background ctx) = None → Wait_blocks w2 ctx)
    ∧ (∀ ctx r w3, Wait w2 ctx r w3 →
                   r = (None, Err (default Background ctx))
                   ∧ is_Some (Err (default Background ctx)) ∧ w3 = w2).
Proof.
  intros Hw Honce.
  exists (mkpayloadWaiter (mkchan [p] 1) true), (mkpayloadWaiter (mkchan [] 1) true).
  split; [by apply Set_first|]. split.
  { intros ctx Hctx. by rewrite Wait_select_full, Hctx. }
  split; [done|]. split; [done|]. split.
  { intros ctx Hctx. unfold Wait_blocks. by rewrite Wait_select_empty, Hctx. }
  intros ctx r w3. unfold Wait. rewrite Wait_select_empty.
  destruct (Err (default Background ctx)) as [err|].
  - by intros [= -> ->]%list_elem_of_singleton.
  - by intros ?%elem_of_nil.
Qed.

(** C2, as the code has it.  With a context that is already done, with
    the error [err], when [Wait] is called, [Wait] does not block: it can
    return the error and no payload, leaving the waiter as it is.  That
    is its only outcome when the channel is empty.  When the channel
    holds a payload, the [select] has two cases that can proceed, and the
    other outcome of [Wait] is that payload, without an error, taken out
    of the channel. *)
Theorem Wait_done_context w err r w' :
  let ctx := Some (mkContext (Some err)) in
  Wait w ctx (None, Some err) w
  ∧ (Wait w ctx r w' ↔
       (r = (None, Some err) ∧ w' = w)
       ∨ (∃ pl rest, chan_buf (payloadc w) = pl :: rest
                     ∧ r = (pl, None)
                     ∧ w' = mkpayloadWaiter (mkchan rest (chan_cap (payloadc w))) (once w)))
  ∧ (chan_buf (payloadc w) = [] → Wait_select w ctx = [((None, Some err), w)]).
Proof.
  unfold Wait, Wait_select, chan_recv. simpl.
  destruct (chan_buf (payloadc w)) as [|pl rest]; simpl.
  - split; [apply list_elem_of_singleton; done|]. split; [|done].
    rewrite list_elem_of_singleton. split.
    + intros [= -> ->]. by left.
    + intros [[-> ->]|(? & ? & ? & _)]; done.
  - split; [by right; left|]. split; [|done].
    rewrite !elem_of_cons. split.
    + intros [[= -> ->]|[[= -> ->]|?%elem_of_nil]]; [|by left|done].
      right. by exists pl, rest.
    + intros [[-> ->]|(? & ? & [= <- <-] & -> & ->)]; [by right; left|by left].
Qed.

End Waiter.


(** C2 at a new waiter with a cancelled context: the only outcome of
    [Wait] is the error. *)
Lemma Wait_done_context_witness :
  Wait_select NewPayloadWaiter (Some (mkContext (Some Canceled)))
  = [((None, Some Canceled), NewPayloadWaiter)].
Proof.
  apply (Wait_done_context NewPayloadWaiter Canceled (None, None) NewPayloadWaiter).
  reflexivity.
Defined.

(** C1 at a new waiter: the first [Wait] returns the payload, the second
    is blocked. *)
Lemma Wait_takes_the_payload_witness :
  ∃ w1 w2,
    Set_ NewPayloadWaiter (Some 1%positive) = Some w1
    ∧ Wait_select w1 None = [((Some 1%positive, None), w2)]
    ∧ Wait_blocks w2 None.
Proof.
  destruct (Wait_takes_the_payload NewPayloadWaiter (Some 1%positive)
              reachable_new eq_refl)
    as (w1 & w2 & HSet & HWait & _ & _ & Hblocks & _).
  exists w1, w2. split; [exact HSet|]. split.
  - apply HWait. reflexivity.
  - apply Hblocks. reflexivity.
Defined.

(** C1 fails as it is stated: after [Set] has deposited the payload at
    address 1 in a new waiter, a first [Wait] returns it and empties the
    channel, and a second [Wait] finds the channel empty: with no
    context it blocks, and whatever the context it does not return that
    payload. *)
Lemma Wait_twice_counterexample :
  ∃ w1 w2,
    Set_ NewPayloadWaiter (Some 1%positive) = Some w1
    ∧ Wait w1 None (Some 1%positive, None) w2
    ∧ chan_buf (payloadc w2) = []
    ∧ Wait_blocks w2 None
    ∧ ∀ ctx r w3, Wait w2 ctx r w3 → r.1 ≠ Some 1%positive.
Proof.
  exists (mkpayloadWaiter (mkchan [Some 1%positive] 1) true),
         (mkpayloadWaiter (mkchan [] 1) true).
  split; [reflexivity|]. split; [by left|]. split; [reflexivity|].
  split; [reflexivity|].
  intros ctx r w3. unfold Wait. rewrite Wait_select_empty.
  destruct (Err (default Background ctx)).
  - by intros [= -> ->]%list_elem_of_singleton.
  - by intros ?%elem_of_nil.
Qed.

(** C2 fails as it is stated: with a payload deposited and a context
    that is already cancelled, [Wait] can return the payload and no
    error, and take the payload out of the channel. *)
Lemma Wait_cancelled_counterexample :
  ∃ w1 w2,
    Set_ NewPayloadWaiter (Some 1%positive) = Some w1
    ∧ Wait w1 (Some (mkContext (Some Canceled))) (Some 1%positive, None) w2
    ∧ chan_buf (payloadc w2) = [].
Proof.
  exists (mkpayloadWaiter (mkchan [Some 1%positive] 1) true),
         (mkpayloadWaiter (mkchan [] 1) true).
  split; [reflexivity|]. split; [by left|reflexivity].
Qed.

(** ** The pair behavior *)

Import behaviors_pair.

Section PairProps.
Context `{PairNames}.
Implicit Types (b : pairBehavior) (event : Event) (now tnow : Time).

(** The keys of a map literal are different constants. *)
Ltac distinct_keys :=
  repeat match goal with
         | Hnd : NoDup (_ :: _) |- _ => apply NoDup_cons in Hnd as [? Hnd]
         | Hin : _ ∉ _ :: _ |- _ => apply not_elem_of_cons in Hin as [? Hin]
         end.

(** The difference of two instants that are less than 292 years apart is
    not saturated. *)
Lemma Time_Sub_exact (t u : Time) :
  minDuration ≤ t - u ≤ maxDuration → Time_Sub t u = t - u.
Proof.
  intros [Hmin Hmax]. unfold Time_Sub.
  destruct (Z.ltb_spec (t - u) minDuration); [lia|].
  destruct (Z.ltb_spec maxDuration (t - u)); [lia|done].
Qed.

(** Both emissions clear the time of the hit and nothing else. *)
Lemma emitPair_clears_hit b timestamp data b' effs :
  emitPair b timestamp data = Some (b', effs) → b' = set_hit None b.
Proof.
  unfold emitPair. destruct (cell b), (hit b); simpl; congruence.
Qed.

Lemma emitTimeout_clears_hit b tnow b' effs :
  emitTimeout b tnow = Some (b', effs) → b' = set_hit None b.
Proof.
  unfold emitTimeout. destruct (cell b), (hit b); simpl; congruence.
Qed.

(** On such a state [ProcessEvent] does not panic, and it leads to such a
    state. *)
Lemma ProcessEvent_returns b event now tnow :
  pair_inv b →
  ∃ b' effs, ProcessEvent b event now tnow = Some (b', effs) ∧ pair_inv b'.
Proof.
  intros [[c Hcell] Hpending]. unfold ProcessEvent.
  destruct (String.eqb (Topic event) EventPairTimeoutTopic).
  - destruct (hit b) as [bhit|] eqn:Hhit, (timeout b) as [t|] eqn:Htimeout;
      try (eexists _, _; split; [reflexivity|]; split; [by eexists|];
           by rewrite Hhit, Htimeout).
    destruct (GetTime _ _) as [ehit ok].
    destruct (ok && Time_Equal ehit bhit).
    + unfold emitTimeout. rewrite Hcell, Hhit. simpl.
      eexists _, _. split; [reflexivity|]. by split; [eexists|].
    + eexists _, _. split; [reflexivity|]. split; [by eexists|].
      by rewrite Hhit, Htimeout.
  - destruct (matches b event (hitData b)) as [data [|]];
      [|by eexists _, _; split; [reflexivity|]; split; [eexists|]].
    destruct (hit b) as [bhit|] eqn:Hhit.
    + destruct (timeout b) as [t|] eqn:Htimeout;
        [|by destruct Hpending as [_ Hp]; specialize (Hp eq_refl)].
      simpl. unfold emitTimeout, emitPair. simpl. rewrite Hcell, Hhit. simpl.
      destruct (duration b <? Time_Sub now bhit); simpl;
        eexists _, _; (split; [reflexivity|]); by split; [eexists|].
    + eexists _, _. split; [reflexivity|]. simpl. split; [by eexists|].
      split; discriminate.
Qed.

(** C9. A timeout event that arrives when no hit is pending, or whose
    payload does not hold the time of the pending hit under the key of
    the first time, is dropped: nothing is emitted and the behavior is as
    it was, in all its fields. *)
Theorem stale_timeout_ignored b event now tnow :
  Topic event = EventPairTimeoutTopic →
  (∀ bhit, hit b = Some bhit →
           GetTime (EventPayload event) EventPairFirstTimePayload ≠ (bhit, true)) →
  ProcessEvent b event now tnow = Some (b, []).
Proof.
  intros Htopic Hstale. unfold ProcessEvent.
  rewrite Htopic, String.eqb_refl.
  destruct (hit b) as [bhit|]; [|done].
  destruct (timeout b) as [t|]; [|done].
  specialize (Hstale bhit eq_refl).
  destruct (GetTime _ _) as [ehit ok].
  destruct ok; [|done]. simpl. unfold Time_Equal.
  destruct (Z.eqb_spec ehit bhit) as [->|_]; [done|done].
Qed.

(** C4. A behavior in a cell has a hit pending, with its timer, and an
    event that is not the timeout event matches the criterion.  Then
    [ProcessEvent] calls the criterion with the stored data, stops the
    timer and emits one event: the timeout event, with the time and the
    data of the first hit and the time of the timeout, when the time
    since the first hit is longer than the duration, and else the pair
    event, with the time and the data of the first hit and the time and
    the data of the second.  Afterwards no hit and no timer are pending.
    The emitted mappings are those of the map literals of the code; their
    keys are different constants, so every key holds its value. *)
Theorem second_hit_resolves b c bhit t event now tnow data :
  cell b = Some c →
  hit b = Some bhit →
  timeout b = Some t →
  Topic event ≠ EventPairTimeoutTopic →
  matches b event (hitData b) = (data, true) →
  let timeout_values : PayloadValues :=
    <[EventPairFirstTimePayload := VTime bhit]>
      (<[EventPairFirstDataPayload := hitData b]>
        (<[EventPairTimeoutPayload := VTime tnow]> ∅)) in
  let pair_values : PayloadValues :=
    <[EventPairFirstTimePayload := VTime bhit]>
      (<[EventPairFirstDataPayload := hitData b]>
        (<[EventPairSecondTimePayload := VTime now]>
          (<[EventPairSecondDataPayload := data]> ∅))) in
  ∃ b' emitted,
    ProcessEvent b event now tnow
    = Some (b', [CallMatches event (hitData b); TimerStop t; emitted])
    ∧ hit b' = None
    ∧ timeout b' = None
    ∧ (duration b < Time_Sub now bhit →
       emitted = CellEmitNew c EventPairTimeoutTopic timeout_values)
    ∧ (Time_Sub now bhit ≤ duration b →
       emitted = CellEmitNew c EventPairTopic pair_values)
    ∧ (NoDup [EventPairFirstTimePayload; EventPairFirstDataPayload;
              EventPairTimeoutPayload] →
       timeout_values !! EventPairFirstTimePayload = Some (VTime bhit)
       ∧ timeout_values !! EventPairFirstDataPayload = Some (hitData b)
       ∧ timeout_values !! EventPairTimeoutPayload = Some (VTime tnow))
    ∧ (NoDup [EventPairFirstTimePayload; EventPairFirstDataPayload;
              EventPairSecondTimePayload; EventPairSecondDataPayload] →
       pair_values !! EventPairFirstTimePayload = Some (VTime bhit)
       ∧ pair_values !! EventPairFirstDataPayload = Some (hitData b)
       ∧ pair_values !! EventPairSecondTimePayload = Some (VTime now)
       ∧ pair_values !! EventPairSecondDataPayload = Some data).
Proof.
  intros Hcell Hhit Htimeout Htopic Hmatch timeout_values pair_values.
  unfold ProcessEvent.
  apply String.eqb_neq in Htopic. rewrite Htopic, Hmatch, Hhit, Htimeout. simpl.
  unfold emitTimeout, emitPair. simpl. rewrite Hcell, Hhit. simpl.
  destruct (Z.ltb_spec (duration b) (Time_Sub now bhit)) as [Hlate|Hintime]; simpl;
    eexists _, _; (split; [reflexivity|]); simpl;
    (split; [done|]); (split; [done|]);
    (split; [intros ?; first [done|lia]|]);
    (split; [intros ?; first [done|lia]|]).
  all: split.
  all: intros Hnd; distinct_keys; subst timeout_values pair_values;
    repeat split; by simplify_map_eq.
Qed.

End PairProps.

Section PairProps2.
Context `{PairNames}.
Implicit Types (b : pairBehavior) (event : Event) (now tnow : Time).

(** What one event does to the stored data: the criterion is called
    with it, the resolution of a hit keeps it, and nothing but the
    recording of a first hit changes it. *)
Lemma stored_data_step b event now tnow b' effs :
  ProcessEvent b event now tnow = Some (b', effs) →
  (Topic event ≠ EventPairTimeoutTopic →
     ∃ rest, effs = CallMatches event (hitData b) :: rest)
  ∧ (is_Some (hit b) → hit b' = None →
     hitData b' = hitData b ∧ timeout b' = None)
  ∧ (hitData b' = hitData b ∨ (hit b = None ∧ is_Some (hit b'))).
Proof.
  intros Hprocess. unfold ProcessEvent in Hprocess.
  destruct (String.eqb_spec (Topic event) EventPairTimeoutTopic) as [Htopic|Htopic].
  - split; [done|].
    destruct (hit b) as [bhit|] eqn:Hhit, (timeout b) as [t|] eqn:Htimeout;
      try (injection Hprocess as <- <-; rewrite ?Hhit;
           split; [by intros [? ?]|by left]).
    destruct (GetTime _ _) as [ehit ok].
    destruct (ok && Time_Equal ehit bhit).
    + destruct (emitTimeout b tnow) as [[b1 effs1]|] eqn:Hemit; [|done].
      apply emitTimeout_clears_hit in Hemit as ->.
      simpl in Hprocess. injection Hprocess as <- <-. simpl. by split; [|left].
    + injection Hprocess as <- <-. rewrite Hhit. by split; [|left].
  - destruct (matches b event (hitData b)) as [data [|]].
    + destruct (hit b) as [bhit|] eqn:Hhit.
      * destruct (timeout b) as [t|]; [|done]. simpl in Hprocess.
        destruct (if duration b <? Time_Sub now bhit
                  then emitTimeout (set_timeout None b) tnow
                  else emitPair (set_timeout None b) now data)
          as [[b1 effs1]|] eqn:Hemit; [|done].
        assert (b1 = set_hit None (set_timeout None b)) as ->.
        { destruct (duration b <? Time_Sub now bhit);
            [by eapply emitTimeout_clears_hit|by eapply emitPair_clears_hit]. }
        simpl in Hprocess. injection Hprocess as <- <-. simpl.
        split; [by eexists|]. by split; [|left].
      * injection Hprocess as <- <-. simpl.
        split; [by eexists|]. split; [by intros [? ?]|]. right. by split; [|eexists].
    + injection Hprocess as <- <-. split; [by eexists|].
      split; [|by left]. intros [bhit Hhit]. by rewrite Hhit.
Qed.

(** The recording of a first hit stores the instant of the hit and the
    data the criterion returned for it. *)
Lemma first_hit_stores_data b event now tnow b' effs data :
  ProcessEvent b event now tnow = Some (b', effs) →
  Topic event ≠ EventPairTimeoutTopic →
  hit b = None →
  matches b event (hitData b) = (data, true) →
  hit b' = Some now ∧ hitData b' = data.
Proof.
  unfold ProcessEvent. intros Hprocess Htopic%String.eqb_neq Hhit Hmatch.
  rewrite Htopic, Hmatch, Hhit in Hprocess.
  by injection Hprocess as <- <-.
Qed.

(** The stored data changes only when a first hit is recorded, and it is
    then the data the criterion returned. *)
Lemma stored_data_changes b event now tnow b' effs :
  ProcessEvent b event now tnow = Some (b', effs) →
  hitData b' = hitData b
  ∨ (Topic event ≠ EventPairTimeoutTopic
     ∧ hit b = None ∧ hit b' = Some now
     ∧ matches b event (hitData b) = (hitData b', true)).
Proof.
  intros Hprocess.
  destruct (stored_data_step _ _ _ _ _ _ Hprocess) as (_ & _ & [Hkept|[Hhit _]]);
    [by left|].
  destruct (String.eqb_spec (Topic event) EventPairTimeoutTopic) as [Htopic|Htopic].
  { left. unfold ProcessEvent in Hprocess.
    apply String.eqb_eq in Htopic. rewrite Htopic, Hhit in Hprocess.
    by injection Hprocess as <- <-. }
  destruct (matches b event (hitData b)) as [data ok] eqn:Hmatch.
  destruct ok.
  - destruct (first_hit_stores_data _ _ _ _ _ _ _ Hprocess Htopic Hhit Hmatch)
      as [Hhit' <-].
    right. by repeat split.
  - left. unfold ProcessEvent in Hprocess.
    apply String.eqb_neq in Htopic. rewrite Htopic, Hmatch in Hprocess.
    by injection Hprocess as <- <-.
Qed.

(** C3, as the code has it.  The criterion is called with the stored
    data, on every event that is not the timeout event and in every
    state.  The stored data is nil in a new behavior.  The recording of a
    first hit stores the data the criterion returned for that hit, and
    nothing else changes the stored data: when a pending hit is resolved,
    as a pair or as a timeout, the time of the hit and the timer are
    cleared and the data is kept.  So after a hit was resolved the
    criterion receives the data of that hit, the most recent first hit,
    and not nil. *)
Theorem criterion_receives_stored_data b event now tnow b' effs :
  ProcessEvent b event now tnow = Some (b', effs) →
  hitData (NewPairBehavior (matches b) (duration b)) = VNil
  ∧ (Topic event ≠ EventPairTimeoutTopic →
     ∃ rest, effs = CallMatches event (hitData b) :: rest)
  ∧ (Topic event ≠ EventPairTimeoutTopic → hit b = None →
     ∀ data, matches b event (hitData b) = (data, true) →
             hit b' = Some now ∧ hitData b' = data)
  ∧ (is_Some (hit b) → hit b' = None →
     hitData b' = hitData b ∧ timeout b' = None)
  ∧ (hitData b' = hitData b
     ∨ (Topic event ≠ EventPairTimeoutTopic
        ∧ hit b = None ∧ hit b' = Some now
        ∧ matches b event (hitData b) = (hitData b', true))).
Proof.
  intros Hprocess. split; [done|].
  destruct (stored_data_step _ _ _ _ _ _ Hprocess) as (Hcalled & Hresolved & _).
  split; [exact Hcalled|]. split.
  - intros Htopic Hhit data Hmatch.
    by apply (first_hit_stores_data b event now tnow b' effs).
  - split; [exact Hresolved|]. by apply (stored_data_changes b event now tnow b' effs).
Qed.

End PairProps2.

Import examples.

(** C3 fails as it is stated: a first hit at the instant 10 and a second
    at the instant 20 are emitted as a pair; the behavior is then idle,
    its stored data is still the data of the first hit, and the
    criterion is called with that data, not with nil, on the next
    event. *)
Lemma idle_criterion_counterexample :
  ∃ effs1 effs2 effs3 b3,
    ProcessEvent (H := names) idle event_a 10 0 = Some (pending, effs1)
    ∧ ProcessEvent (H := names) pending event_a 20 0 = Some (resolved, effs2)
    ∧ hit resolved = None
    ∧ hitData resolved = VString "a"
    ∧ ProcessEvent (H := names) resolved event_a 30 0
      = Some (b3, CallMatches event_a (VString "a") :: effs3).
Proof. repeat eexists. Qed.

(** C3 at a first hit, which stores the data [a] of the criterion, and at
    the behavior after that hit was resolved: the criterion is called
    with the data [a]. *)
Lemma criterion_receives_stored_data_witness :
  (ProcessEvent (H := names) idle event_a 10 0
   = Some (pending, [CallMatches event_a VNil; AfterFunc timer_10])
   ∧ hit pending = Some 10 ∧ hitData pending = VString "a")
  ∧ ∃ b' effs rest,
      ProcessEvent (H := names) resolved event_a 30 0 = Some (b', effs)
      ∧ effs = CallMatches event_a (VString "a") :: rest.
Proof.
  split.
  - split; [reflexivity|].
    destruct (criterion_receives_stored_data (H := names) idle event_a 10 0 _ _ eq_refl)
      as (_ & _ & Hstored & _).
    apply (Hstored ltac:(discriminate) eq_refl (VString "a") eq_refl).
  - eexists _, _.
    destruct (criterion_receives_stored_data (H := names) resolved event_a 30 0 _ _ eq_refl)
      as (_ & Hcalled & _).
    destruct Hcalled as [rest Hrest]; [discriminate|].
    exists rest. split; [reflexivity|exact Hrest].
Defined.

(** C9 at a pending hit of the instant 10 and a timeout event for a hit
    of the instant 5. *)
Lemma stale_timeout_ignored_witness :
  ProcessEvent (H := names) pending stale_timeout 20 20 = Some (pending, []).
Proof.
  apply (stale_timeout_ignored (H := names) pending stale_timeout 20 20).
  - reflexivity.
  - intros bhit [= <-]. vm_compute. discriminate.
Defined.

(** C4 at a pending hit of the instant 10: a second hit at the instant 20
    is in time and emitted as a pair, one at the instant 500 is late and
    emitted as a timeout. *)
Lemma second_hit_resolves_witness :
  (∃ b', ProcessEvent (H := names) pending event_a 20 21
         = Some (b', [CallMatches event_a (VString "a"); TimerStop timer_10;
                      CellEmitNew "c" "pair"
                        {[ "pair:first-time" := VTime 10;
                           "pair:first-data" := VString "a";
                           "pair:second-time" := VTime 20;
                           "pair:second-data" := VString "a" ]}])
         ∧ hit b' = None ∧ timeout b' = None)
  ∧ (∃ b', ProcessEvent (H := names) pending event_a 500 501
           = Some (b', [CallMatches event_a (VString "a"); TimerStop timer_10;
                        CellEmitNew "c" "pair-timeout"
                          {[ "pair:first-time" := VTime 10;
                             "pair:first-data" := VString "a";
                             "pair:timeout" := VTime 501 ]}])
           ∧ hit b' = None ∧ timeout b' = None).
Proof.
  split.
  - destruct (second_hit_resolves (H := names) pending "c" 10 timer_10 event_a 20 21
                (VString "a") eq_refl eq_refl eq_refl)
      as (b' & emitted & Hprocess & Hhit & Htimeout & _ & Hpair & _);
      [discriminate|reflexivity|].
    exists b'. rewrite Hprocess, (Hpair ltac:(vm_compute; discriminate)).
    split; [reflexivity|]. split; [exact Hhit|exact Htimeout].
  - destruct (second_hit_resolves (H := names) pending "c" 10 timer_10 event_a 500 501
                (VString "a") eq_refl eq_refl eq_refl)
      as (b' & emitted & Hprocess & Hhit & Htimeout & Hlate & _);
      [discriminate|reflexivity|].
    exists b'. rewrite Hprocess, (Hlate ltac:(vm_compute; reflexivity)).
    split; [reflexivity|]. split; [exact Hhit|exact Htimeout].
Defined.

(** ** The counter behavior *)

Import behaviors_counter.

Section CounterProps.
Context `{CounterNames}.
Variable DefaultPayload : string.
Implicit Types (b : counterBehavior) (h : store) (ws : waiters) (id topic : string).

#[local] Opaque NewPayload.

(** A payload of counters stands for the mapping it was made from. *)
Lemma counters_of_snapshot (cs : gmap string Z) :
  counters_of (mkpayload (VInt64 <$> cs)) = cs.
Proof.
  unfold counters_of. simpl. apply map_eq. intros key.
  rewrite lookup_omap, lookup_fmap. by destruct (cs !! key).
Qed.

(** An event of a topic that is not reserved counts the keys of the key
    function. *)
Lemma EmitNew_counts id b h ws topic raw :
  topic ≠ TopicReset → topic ≠ TopicRequest → type_of raw ≠ TPayload →
  EmitNew DefaultPayload id b h ws topic raw
  = Some (mkcounterBehavior (counterFunc b)
            (foldl increment (counters b)
               (counterFunc b id
                  (mkEvent topic (mkpayload (argument_entries DefaultPayload h raw))))),
          (NewPayload DefaultPayload h raw).1, ws).
Proof.
  intros Hreset%String.eqb_neq Hrequest%String.eqb_neq Hraw. unfold EmitNew.
  destruct (NewPayload_wraps DefaultPayload h raw Hraw) as (_ & Hnew & _).
  destruct (NewPayload DefaultPayload h raw) as [h1 p1]. simpl in *.
  rewrite Hnew. simpl. unfold ProcessEvent. simpl. by rewrite Hreset, Hrequest.
Qed.

(** The reset event clears the counters. *)
Lemma EmitNew_resets id b h ws raw :
  type_of raw ≠ TPayload →
  EmitNew DefaultPayload id b h ws TopicReset raw
  = Some (mkcounterBehavior (counterFunc b) ∅, (NewPayload DefaultPayload h raw).1, ws).
Proof.
  intros Hraw. unfold EmitNew.
  destruct (NewPayload_wraps DefaultPayload h raw Hraw) as (_ & Hnew & _).
  destruct (NewPayload DefaultPayload h raw) as [h1 p1]. simpl in *.
  rewrite Hnew. simpl. unfold ProcessEvent. simpl. by rewrite String.eqb_refl.
Qed.

(** A snapshot request whose context is not done is answered with the
    mapping of the counters, and with nothing else. *)
Lemma RequestSnapshot_answers ctx id b h ws :
  TopicReset ≠ TopicRequest →
  Err (default Background ctx) = None →
  ∃ h' ws',
    RequestSnapshot DefaultPayload ctx id b h ws
    = Some [((Some (counters b), None), (h', ws'))].
Proof.
  intros Hne%not_eq_sym%String.eqb_neq Hctx. unfold RequestSnapshot, EmitNew.
  set (wp := fresh (dom ws)).
  set (request := VPayloadValues (<[PayloadWaiterKey := VWaiter wp]> ∅)).
  destruct (NewPayload_wraps DefaultPayload h request) as (_ & Hnew & _); [done|].
  destruct (NewPayload DefaultPayload h request) as [h1 p1]. simpl in Hnew.
  rewrite Hnew. simpl. unfold ProcessEvent. simpl.
  rewrite Hne, String.eqb_refl.
  unfold GetWaiter, Get. simpl. rewrite lookup_insert_eq. simpl.
  set (snapshot := VPayloadValues (VInt64 <$> counters b)).
  destruct (NewPayload_wraps DefaultPayload h1 snapshot) as (_ & Hsnap & _); [done|].
  destruct (NewPayload DefaultPayload h1 snapshot) as [h2 p2]. simpl in Hsnap.
  rewrite lookup_insert_eq. simpl. rewrite lookup_insert_eq. simpl.
  unfold Wait_select. simpl. rewrite Hctx. simpl.
  rewrite Hsnap. simpl. rewrite counters_of_snapshot. eauto.
Qed.

(** The handler on an event of a topic that is not reserved, and on the
    reset event; neither touches the heaps. *)
Lemma ProcessEvent_counts id b h ws event :
  Topic event ≠ TopicReset → Topic event ≠ TopicRequest →
  ProcessEvent DefaultPayload id b h ws event
  = Some (mkcounterBehavior (counterFunc b)
            (foldl increment (counters b) (counterFunc b id event)), h, ws).
Proof.
  intros Hreset%String.eqb_neq Hrequest%String.eqb_neq.
  unfold ProcessEvent. by rewrite Hreset, Hrequest.
Qed.

Lemma ProcessEvent_resets id b h ws event :
  Topic event = TopicReset →
  ProcessEvent DefaultPayload id b h ws event
  = Some (mkcounterBehavior (counterFunc b) ∅, h, ws).
Proof. intros Htopic. unfold ProcessEvent. by rewrite Htopic, String.eqb_refl. Qed.

(** The counters do not depend on the order of the keys of an event. *)
Lemma increment_comm (cs : gmap string Z) (j k : string) :
  increment (increment cs j) k = increment (increment cs k) j.
Proof.
  unfold increment. destruct (decide (j = k)) as [->|Hne]; [done|].
  rewrite !lookup_insert_ne by done. by apply insert_insert_ne.
Qed.

Lemma foldl_increment_perm (l1 l2 : list string) :
  l1 ≡ₚ l2 → ∀ cs, foldl increment cs l1 = foldl increment cs l2.
Proof.
  induction 1 as [|k l1 l2 _ IH|j k l|l1 l2 l3 _ IH12 _ IH23]; intros cs; simpl.
  - done.
  - apply IH.
  - by rewrite increment_comm.
  - by rewrite IH12.
Qed.

(** The counters of the three events of the unit test. *)
Lemma counts_of_the_test :
  foldl increment (foldl increment (foldl increment ∅ ["a"; "b"]) ["a"; "c"; "d"])
    ["a"; "d"]
  = ({[ "a" := 3; "b" := 1; "c" := 1; "d" := 2 ]} : gmap string Z).
Proof. vm_compute. reflexivity. Qed.

(** C8. A new counter behavior handles three events from which its key
    function derives the keys [a, b], then [a, c, d], then [a, d], in any
    order; the snapshot then requested is the mapping [a: 3, b: 1, c: 1,
    d: 2] and nothing else.  It then handles a reset event, and the
    snapshot requested after it is the empty mapping.  The topics of the
    three events are not reserved, the two reserved topics differ, and
    the context of the requests is not done. *)
Theorem counter_scenario keys ctx id h ws (e1 e2 e3 reset : Event) :
  TopicReset ≠ TopicRequest →
  Forall (λ e, Topic e ≠ TopicReset ∧ Topic e ≠ TopicRequest) [e1; e2; e3] →
  keys id e1 ≡ₚ ["a"; "b"] →
  keys id e2 ≡ₚ ["a"; "c"; "d"] →
  keys id e3 ≡ₚ ["a"; "d"] →
  Topic reset = TopicReset →
  Err (default Background ctx) = None →
  ∃ b1 b2 b3 h4 ws4 b5 h6 ws6,
    ProcessEvent DefaultPayload id (NewCounterBehavior keys) h ws e1 = Some (b1, h, ws)
    ∧ ProcessEvent DefaultPayload id b1 h ws e2 = Some (b2, h, ws)
    ∧ ProcessEvent DefaultPayload id b2 h ws e3 = Some (b3, h, ws)
    ∧ RequestSnapshot DefaultPayload ctx id b3 h ws
      = Some [((Some {[ "a" := 3; "b" := 1; "c" := 1; "d" := 2 ]}, None), (h4, ws4))]
    ∧ ProcessEvent DefaultPayload id b3 h4 ws4 reset = Some (b5, h4, ws4)
    ∧ RequestSnapshot DefaultPayload ctx id b5 h4 ws4
      = Some [((Some ∅, None), (h6, ws6))].
Proof.
  intros Hne Htopics Hkeys1 Hkeys2 Hkeys3 Hreset Hctx.
  apply Forall_cons in Htopics as [[? ?] Htopics].
  apply Forall_cons in Htopics as [[? ?] Htopics].
  apply Forall_cons in Htopics as [[? ?] _].
  unfold NewCounterBehavior. eexists _, _, _.
  edestruct (RequestSnapshot_answers ctx id) as (h4 & ws4 & Hsnapshot); [done..|].
  exists h4, ws4. eexists _.
  edestruct (RequestSnapshot_answers ctx id) as (h6 & ws6 & Hempty); [done..|].
  exists h6, ws6.
  split; [by apply ProcessEvent_counts|].
  split; [by apply ProcessEvent_counts|].
  split; [by apply ProcessEvent_counts|].
  split.
  { rewrite Hsnapshot. cbn [counters counterFunc].
    rewrite (foldl_increment_perm _ _ Hkeys3), (foldl_increment_perm _ _ Hkeys2),
      (foldl_increment_perm _ _ Hkeys1).
    by rewrite counts_of_the_test. }
  split; [by apply ProcessEvent_resets|].
  by rewrite Hempty.
Qed.

#[local] Transparent NewPayload.

End CounterProps.

(** C8 with the key function and the events of the unit test, with
    concrete strings for the constants, on empty heaps and with no
    context. *)
Lemma counter_scenario_witness :
  ∃ b3 h4 ws4 b5 h6 ws6,
    RequestSnapshot (H := counter_names) "default" None "counter" b3 ∅ ∅
    = Some [((Some {[ "a" := 3; "b" := 1; "c" := 1; "d" := 2 ]}, None), (h4, ws4))]
    ∧ ProcessEvent (H := counter_names) "default" "counter" b3 h4 ws4 reset_event
      = Some (b5, h4, ws4)
    ∧ RequestSnapshot (H := counter_names) "default" None "counter" b5 h4 ws4
      = Some [((Some ∅, None), (h6, ws6))].
Proof.
  destruct (counter_scenario (H := counter_names) "default" (cf "default") None
              "counter" ∅ ∅ (count_event ["a"; "b"]) (count_event ["a"; "c"; "d"])
              (count_event ["a"; "d"]) reset_event)
    as (b1 & b2 & b3 & h4 & ws4 & b5 & h6 & ws6
        & _ & _ & _ & Hsnapshot & Hreset & Hempty).
  - discriminate.
  - repeat constructor; discriminate.
  - reflexivity.
  - reflexivity.
  - reflexivity.
  - reflexivity.
  - reflexivity.
  - exists b3, h4, ws4, b5, h6, ws6.
    split; [exact Hsnapshot|]. split; [exact Hreset|exact Hempty].
Defined.

(** * Further properties of the code *)

Import golang cells spec runs.

(** ** The payload *)

Section PayloadMore.
Variable DefaultPayload : string.
Implicit Types (h : store) (p q : ptr) (pl : payload) (vals : value) (key : string).

(** X1. [NewPayload] of a value that is no payload allocates: the address
    is new and the payloads of the heap are as they were.  [Get] on the
    new payload finds the entries of a mapping, and nothing else; for any
    other value, nil included, it finds that value under the default key,
    and nothing else. *)
Theorem NewPayload_Get h vals :
  type_of vals ≠ TPayload →
  ∃ h' p pl,
    NewPayload DefaultPayload h vals = (h', p)
    ∧ h !! p = None
    ∧ (∀ q, q ≠ p → h' !! q = h !! q)
    ∧ h' !! p = Some pl
    ∧ match vals with
      | VPayloadValues m | VMap m =>
          Len pl = Z.of_nat (size m)
          ∧ ∀ key, Get pl key = match m !! key with
                                | Some v => (v, true)
                                | None => (VNil, false)
                                end
      | _ =>
          Len pl = 1
          ∧ Get pl DefaultPayload = (vals, true)
          ∧ ∀ key, key ≠ DefaultPayload → Get pl key = (VNil, false)
      end.
Proof.
  intros Hty.
  destruct (NewPayload_wraps DefaultPayload h vals Hty) as (Hfresh & Hnew & Hold).
  destruct (NewPayload DefaultPayload h vals) as [h' p]. simpl in *.
  eexists h', p, _. split; [done|]. split; [done|]. split; [done|].
  split; [exact Hnew|].
  unfold Len, Get. simpl.
  destruct vals; try done; simpl;
    try (split; [by rewrite map_size_singleton|];
         split; [by rewrite lookup_singleton_eq|];
         intros key Hkey; by rewrite lookup_singleton_ne).
  all: split; [done|]; intros key; by destruct (_ !! key).
Qed.

(** X2. [Keys] lists every key once: it has no duplicates, a key is in
    it exactly when [Get] finds the key, and its length is [Len]. *)
Theorem Keys_Get_Len pl :
  NoDup (Keys pl)
  ∧ (∀ key, key ∈ Keys pl ↔ (Get pl key).2 = true)
  ∧ Len pl = Z.of_nat (length (Keys pl)).
Proof.
  unfold Keys, Get, Len. split; [apply NoDup_fst_map_to_list|]. split.
  - intros key. rewrite list_elem_of_fmap. split.
    + intros ([key' v] & -> & Hin%elem_of_map_to_list). simpl. by rewrite Hin.
    + destruct (values pl !! key) as [v|] eqn:Hkey; [|done].
      intros _. exists (key, v). split; [done|]. by apply elem_of_map_to_list.
  - by rewrite length_fmap, length_map_to_list.
Qed.

(** X3. A typed accessor returns a value with the flag [true] exactly
    when the key holds that value with the type of the accessor; then
    [Get] returns the same value. *)
Theorem typed_accessors_found_iff pl key :
  (∀ b, GetBool pl key = (b, true) ↔ Get pl key = (VBool b, true))
  ∧ (∀ n, GetInt pl key = (n, true) ↔ Get pl key = (VInt n, true))
  ∧ (∀ f, GetFloat64 pl key = (f, true) ↔ Get pl key = (VFloat64 f, true))
  ∧ (∀ s, GetString pl key = (s, true) ↔ Get pl key = (VString s, true))
  ∧ (∀ t, GetTime pl key = (t, true) ↔ Get pl key = (VTime t, true))
  ∧ (∀ d, GetDuration pl key = (d, true) ↔ Get pl key = (VDuration d, true))
  ∧ (∀ w, GetWaiter pl key = (Some w, true) ↔ Get pl key = (VWaiter w, true)).
Proof.
  unfold GetBool, GetInt, GetFloat64, GetString, GetTime, GetDuration, GetWaiter.
  destruct (Get pl key) as [raw [|]] eqn:HGet; simpl.
  - repeat split; destruct raw; congruence.
  - repeat split; congruence.
Qed.

(** The heap after [Apply], and the entries of the payload it returns. *)
Lemma Apply_entries h p pl vals :
  h !! p = Some pl →
  valid_argument h vals →
  ∃ h' applied,
    Apply DefaultPayload h p vals = Some (h', applied)
    ∧ h !! applied = None
    ∧ (∀ q, q ≠ applied → h' !! q = h !! q)
    ∧ h' !! applied
      = Some (mkpayload (argument_entries DefaultPayload h vals ∪ values pl)).
Proof.
  intros Hp Hvalid. unfold Apply. rewrite Hp. simpl.
  set (applied := fresh (dom h)).
  assert (Hfresh : h !! applied = None) by apply not_elem_of_dom, is_fresh.
  set (h1 := <[applied := mkpayload ∅]> h).
  assert (Hbase : range_assign applied (values pl) h1 !! applied = Some pl).
  { rewrite (range_assign_lookup _ _ _ (mkpayload ∅)) by apply lookup_insert_eq.
    simpl. rewrite (right_id_L ∅ (∪)). by destruct pl. }
  assert (Hframe : ∀ q, q ≠ applied →
            range_assign applied (values pl) h1 !! q = h !! q).
  { intros q Hq. rewrite range_assign_other by done. by apply lookup_insert_ne. }
  set (h2 := range_assign applied (values pl) h1) in *.
  unfold valid_argument in Hvalid.
  destruct vals as [| | | | | | | | | |vs|vs|vs|]; simpl.
  11: { destruct Hvalid as [vsl Hvs].
        assert (vs ≠ applied) as Hne by congruence.
        rewrite (Hframe _ Hne), Hvs. simpl.
        eexists _, _. split; [reflexivity|]. split; [done|]. split.
        - intros q Hq. rewrite Do_assign_other by done. by apply Hframe.
        - by rewrite (Do_assign_lookup _ _ _ _ Hbase). }
  all: eexists _, _; (split; [reflexivity|]); (split; [done|]); split;
    [ intros q Hq; rewrite ?assign_other, ?range_assign_other by done;
      by apply Hframe
    | first [ by rewrite (range_assign_lookup _ _ _ _ Hbase)
            | rewrite (assign_lookup _ _ _ _ _ Hbase); simpl;
              by rewrite insert_union_singleton_l ] ].
Qed.

(** X4. Two calls of [Apply] in a row overlay both arguments on the
    receiver, the second argument over the first: the result holds the
    entries of the second argument, then those of the first for the keys
    the second has not, then those of the receiver for the keys neither
    has.  The three payloads are at different addresses and the first
    two are left as they were. *)
Theorem Apply_Apply h p pl vals1 vals2 :
  h !! p = Some pl →
  valid_argument h vals1 →
  valid_argument h vals2 →
  ∃ h1 q ql h2 r rl,
    Apply DefaultPayload h p vals1 = Some (h1, q)
    ∧ h1 !! q = Some ql
    ∧ Apply DefaultPayload h1 q vals2 = Some (h2, r)
    ∧ h2 !! r = Some rl
    ∧ values rl = argument_entries DefaultPayload h vals2
                  ∪ (argument_entries DefaultPayload h vals1 ∪ values pl)
    ∧ p ≠ q ∧ p ≠ r ∧ q ≠ r
    ∧ h2 !! p = Some pl
    ∧ h2 !! q = Some ql.
Proof.
  intros Hp Hvalid1 Hvalid2.
  destruct (Apply_entries h p pl vals1 Hp Hvalid1)
    as (h1 & q & HApply1 & Hq & Hframe1 & Hql).
  assert (Hpq : p ≠ q) by congruence.
  assert (Hsame : argument_entries DefaultPayload h1 vals2
                  = argument_entries DefaultPayload h vals2
                  ∧ valid_argument h1 vals2).
  { unfold valid_argument in *. destruct vals2; simpl in *; try done.
    destruct Hvalid2 as [vsl Hvs].
    assert (p0 ≠ q) by congruence. by rewrite Hframe1, Hvs. }
  destruct Hsame as [Hsame Hvalid2'].
  destruct (Apply_entries h1 q _ vals2 Hql Hvalid2')
    as (h2 & r & HApply2 & Hr & Hframe2 & Hrl).
  assert (Hqr : q ≠ r) by congruence.
  assert (Hpr : p ≠ r).
  { intros <-. by rewrite Hframe1, Hp in Hr. }
  eexists h1, q, _, h2, r, _.
  split; [done|]. split; [done|]. split; [done|]. split; [done|].
  simpl. rewrite Hsame. split; [done|].
  split; [done|]. split; [done|]. split; [done|].
  split; [by rewrite Hframe2, Hframe1|by rewrite Hframe2].
Qed.

(** X5. [Apply] of an empty mapping, and [Apply] of the receiver itself,
    give a copy of the receiver: a payload at another address with the
    entries of the receiver.  [NewPayload] of the receiver gives the
    receiver, at its address. *)
Theorem Apply_copies h p pl :
  h !! p = Some pl →
  (∃ h' q, Apply DefaultPayload h p (VPayloadValues ∅) = Some (h', q)
           ∧ q ≠ p ∧ h' !! q = Some pl ∧ h' !! p = Some pl)
  ∧ (∃ h' q, Apply DefaultPayload h p (VPayload p) = Some (h', q)
             ∧ q ≠ p ∧ h' !! q = Some pl ∧ h' !! p = Some pl)
  ∧ NewPayload DefaultPayload h (VPayload p) = (h, p).
Proof.
  intros Hp. split; [|split; [|done]].
  - destruct (Apply_entries h p pl (VPayloadValues ∅) Hp I)
      as (h' & q & HApply & Hq & Hframe & Hql).
    assert (p ≠ q) by congruence.
    exists h', q. split; [done|]. split; [done|].
    split; [|by rewrite Hframe].
    rewrite Hql. simpl. rewrite (left_id_L ∅ (∪)). by destruct pl.
  - destruct (Apply_entries h p pl (VPayload p) Hp) as (h' & q & HApply & Hq & Hframe & Hql);
      [by simpl; eexists|].
    assert (p ≠ q) by congruence.
    exists h', q. split; [done|]. split; [done|].
    split; [|by rewrite Hframe].
    rewrite Hql. simpl. rewrite Hp. simpl.
    rewrite (idemp_L (∪)). by destruct pl.
Qed.

(** X6. A payload made by [NewPayload] from a value that is no payload
    has the entries that [Apply] of that value gives on an empty
    payload. *)
Theorem NewPayload_as_Apply h p vals :
  h !! p = Some (mkpayload ∅) →
  type_of vals ≠ TPayload →
  ∃ h1 q h2 r pl,
    NewPayload DefaultPayload h vals = (h1, q)
    ∧ Apply DefaultPayload h p vals = Some (h2, r)
    ∧ h1 !! q = Some pl
    ∧ h2 !! r = Some pl.
Proof.
  intros Hp Hty.
  destruct (NewPayload_wraps DefaultPayload h vals Hty) as (_ & Hnew & _).
  destruct (NewPayload DefaultPayload h vals) as [h1 q]. simpl in Hnew.
  destruct (Apply_entries h p _ vals Hp) as (h2 & r & HApply & _ & _ & Hrl).
  { by destruct vals. }
  eexists h1, q, h2, r, _. split; [done|]. split; [done|]. split; [done|].
  rewrite Hrl. simpl. by rewrite (right_id_L ∅ (∪)).
Qed.

(** X17. [Apply] never loses an entry and adds those of its argument
    only: the payload it returns has at least as many entries as the
    receiver, at least as many as the argument contributes, and at most
    as many as both together. *)
Theorem Apply_Len h p pl vals :
  h !! p = Some pl →
  valid_argument h vals →
  ∃ h' q ql,
    Apply DefaultPayload h p vals = Some (h', q)
    ∧ h' !! q = Some ql
    ∧ Len pl ≤ Len ql
    ∧ Z.of_nat (size (argument_entries DefaultPayload h vals)) ≤ Len ql
    ∧ Len ql ≤ Len pl + Z.of_nat (size (argument_entries DefaultPayload h vals)).
Proof.
  intros Hp Hvalid.
  destruct (Apply_entries h p pl vals Hp Hvalid) as (h' & q & HApply & _ & _ & Hql).
  eexists h', q, _. split; [done|]. split; [done|].
  unfold Len. simpl.
  set (args := argument_entries DefaultPayload h vals).
  rewrite <-!(size_dom (D := gset string)), dom_union_L.
  pose proof (subseteq_size (dom (values pl)) (dom args ∪ dom (values pl))
                ltac:(apply union_subseteq_r)).
  pose proof (subseteq_size (dom args) (dom args ∪ dom (values pl))
                ltac:(apply union_subseteq_l)).
  pose proof (size_union_alt (dom args) (dom (values pl))) as Halt.
  pose proof (subseteq_size (dom (values pl) ∖ dom args) (dom (values pl))
                ltac:(apply subseteq_difference_l; done)).
  lia.
Qed.

End PayloadMore.

(** ** The iteration [Do] *)

Section DoProps.
Context {E : Type}.
Implicit Types (pl : payload) (log : list (string * value)).

(** The entries [Do] has visited, latest first, when the function it runs
    records them and returns the error [e] gives for the entry. *)
Lemma Do_entries_log (e : string → value → option E)
    (entries : list (string * value)) log :
  ∃ visited,
    (Do_entries (λ key v log, ((key, v) :: log, e key v)) entries log).1
    = reverse visited ++ log
    ∧ visited `prefix_of` entries
    ∧ match (Do_entries (λ key v log, ((key, v) :: log, e key v)) entries log).2 with
      | None => visited = entries ∧ Forall (λ kv, e kv.1 kv.2 = None) entries
      | Some err =>
          ∃ before kv, visited = before ++ [kv]
                       ∧ e kv.1 kv.2 = Some err
                       ∧ Forall (λ kv, e kv.1 kv.2 = None) before
      end.
Proof.
  revert log. induction entries as [|[key v] rest IH]; intros log; simpl.
  - exists []. by repeat split.
  - destruct (e key v) as [err|] eqn:Herr.
    + exists [(key, v)]. simpl. split; [done|].
      split; [by apply prefix_cons, prefix_nil|].
      by exists [], (key, v).
    + destruct (IH ((key, v) :: log)) as (visited & Hlog & Hprefix & Hres).
      exists ((key, v) :: visited). rewrite Hlog, reverse_cons, <-app_assoc.
      split; [done|]. split; [by apply prefix_cons|].
      destruct (Do_entries _ rest _).2 as [err|].
      * destruct Hres as (before & kv & -> & Hkv & Hbefore).
        exists ((key, v) :: before), kv. by repeat split; [|apply Forall_cons].
      * destruct Hres as [-> Hall]. split; [done|]. by apply Forall_cons.
Qed.

(** X7. [Do] with a function that returns no error visits every entry of
    the payload once, returns nil, and visits nothing else. *)
Theorem Do_visits_every_entry pl :
  ∃ log,
    Do (E := E) pl (λ key v log, ((key, v) :: log, None)) [] = (log, None)
    ∧ NoDup log.*1
    ∧ ∀ key v, (key, v) ∈ log ↔ values pl !! key = Some v.
Proof.
  unfold Do.
  destruct (Do_entries_log (λ _ _, None) (map_to_list (values pl)) [])
    as (visited & Hlog & _ & Hres).
  destruct (Do_entries _ _ _) as [log res]. simpl in *.
  rewrite (right_id_L [] (++)) in Hlog. subst log.
  destruct res as [err|].
  { destruct Hres as (? & ? & _ & ? & _). done. }
  destruct Hres as [-> _]. eexists. split; [done|]. split.
  - rewrite fmap_reverse, reverse_Permutation. apply NoDup_fst_map_to_list.
  - intros key v. by rewrite elem_of_reverse, elem_of_map_to_list.
Qed.

(** X8. [Do] stops at the first error: it returns nil exactly when the
    function returns nil on every entry of the payload; when it returns
    an error, that error is the one the function returned on the entry
    visited last, the function returned nil on the entries visited
    before, and no entry is visited twice. *)
Theorem Do_stops_at_first_error pl (e : string → value → option E) :
  ∃ log res,
    Do pl (λ key v log, ((key, v) :: log, e key v)) [] = (log, res)
    ∧ NoDup log.*1
    ∧ (∀ key v, (key, v) ∈ log → values pl !! key = Some v)
    ∧ (res = None ↔ ∀ key v, values pl !! key = Some v → e key v = None)
    ∧ (res = None → ∀ key v, values pl !! key = Some v → (key, v) ∈ log)
    ∧ (∀ err, res = Some err →
         ∃ key v rest, log = (key, v) :: rest
                       ∧ e key v = Some err
                       ∧ ∀ key' v', (key', v') ∈ rest → e key' v' = None).
Proof.
  unfold Do.
  destruct (Do_entries_log e (map_to_list (values pl)) [])
    as (visited & Hlog & Hprefix & Hres).
  destruct (Do_entries _ _ _) as [log res]. simpl in *.
  rewrite (right_id_L [] (++)) in Hlog. subst log.
  exists (reverse visited), res. split; [done|].
  destruct Hprefix as [later Hentries].
  pose proof (NoDup_fst_map_to_list (values pl)) as Hnd.
  rewrite Hentries, fmap_app in Hnd. apply NoDup_app in Hnd as (Hnd & _ & _).
  split; [by rewrite fmap_reverse, reverse_Permutation|].
  split.
  { intros key v Hin. rewrite elem_of_reverse in Hin. apply elem_of_map_to_list.
    rewrite Hentries. apply elem_of_app. by left. }
  destruct res as [err|].
  - destruct Hres as (before & [key v] & -> & Hkv & Hbefore). simpl in Hkv.
    split; [|split; [done|]].
    + split; [done|]. intros Hall. exfalso.
      assert (values pl !! key = Some v) as Hin.
      { apply elem_of_map_to_list. rewrite Hentries.
        apply elem_of_app. left. apply elem_of_app. right. by left. }
      specialize (Hall _ _ Hin). congruence.
    + intros ? [= <-]. exists key, v, (reverse before).
      split; [by rewrite reverse_app|]. split; [done|].
      intros key' v' Hin. rewrite elem_of_reverse in Hin.
      by apply (proj1 (Forall_forall _ _) Hbefore (key', v')).
  - destruct Hres as [-> Hall]. split; [|split; [|done]].
    + split; [|done]. intros _ key v Hin%elem_of_map_to_list.
      by apply (proj1 (Forall_forall _ _) Hall (key, v)).
    + intros _ key v Hin. by apply elem_of_reverse, elem_of_map_to_list.
Qed.

End DoProps.

(** ** The payload waiter *)

Section WaiterMore.
Implicit Types (w : payloadWaiter) (p : option Payload) (ctx : option Context).

Lemma reachable_shape w :
  reachable w → w = NewPayloadWaiter ∨ (∃ p, w = holding p) ∨ w = emptied.
Proof.
  unfold holding, emptied.
  induction 1 as [|w p w' _ IH HSet|w ctx r w' _ IH HWait]; [by left|..].
  - destruct IH as [->|[[p' ->]| ->]]; simpl in HSet; injection HSet as <-; eauto.
  - unfold Wait in HWait. destruct IH as [->|[[p' ->]| ->]].
    + unfold NewPayloadWaiter, make_chan in HWait.
      rewrite (Wait_select_empty false) in HWait.
      destruct (Err (default Background ctx)).
      * apply list_elem_of_singleton in HWait as [= _ ->]. by left.
      * by apply elem_of_nil in HWait.
    + rewrite Wait_select_full in HWait.
      apply elem_of_cons in HWait as [[= _ ->]|HWait]; [by right; right|].
      destruct (Err (default Background ctx)).
      * apply list_elem_of_singleton in HWait as [= _ ->]. eauto.
      * by apply elem_of_nil in HWait.
    + rewrite Wait_select_empty in HWait.
      destruct (Err (default Background ctx)).
      * apply list_elem_of_singleton in HWait as [= _ ->]. by right; right.
      * by apply elem_of_nil in HWait.
Qed.

(** X9. A waiter is in one of three states, and in no other: new, holding
    the one payload that was deposited, or emptied after that payload was
    received.  So its channel never holds more than its capacity of one
    payload, and [Set] never blocks. *)
Theorem waiter_states w :
  (reachable w ↔
     w = NewPayloadWaiter ∨ (∃ p, w = holding p) ∨ w = emptied)
  ∧ (reachable w →
     (length (chan_buf (payloadc w)) ≤ chan_cap (payloadc w))%nat
     ∧ ∀ p, ∃ w', Set_ w p = Some w' ∧ reachable w').
Proof.
  unfold holding, emptied.
  assert (Hholding : ∀ p, reachable (mkpayloadWaiter (mkchan [p] 1) true)).
  { intros p. by apply (reachable_Set NewPayloadWaiter p); [apply reachable_new|]. }
  split; [split; [apply reachable_shape|]|].
  - intros [->|[[p ->]| ->]]; [apply reachable_new|apply Hholding|].
    apply (reachable_Wait (mkpayloadWaiter (mkchan [None] 1) true) None (None, None));
      [apply Hholding|].
    unfold Wait. rewrite Wait_select_full. by left.
  - intros Hw. split.
    + destruct (reachable_shape w Hw) as [->|[[p ->]| ->]]; simpl; lia.
    + intros p. destruct (Set_returns w p Hw) as [w' HSet].
      exists w'. split; [done|]. by apply (reachable_Set w p).
Qed.

(** X10. A nil context makes [Wait] wait without limit: the call is the
    one with [context.Background()], it never returns an error, what it
    returns is the payload at the head of the channel, and it is blocked
    exactly while the channel is empty. *)
Theorem Wait_nil_context w :
  Wait_select w None = Wait_select w (Some Background)
  ∧ (∀ r w', Wait w None r w' →
       r.2 = None ∧ ∃ rest, chan_buf (payloadc w) = r.1 :: rest
                            ∧ chan_buf (payloadc w') = rest)
  ∧ (Wait_blocks w None ↔ chan_buf (payloadc w) = []).
Proof.
  split; [done|]. split.
  - intros r w'. unfold Wait, Wait_select, chan_recv. simpl.
    destruct (chan_buf (payloadc w)) as [|pl rest]; simpl.
    + by intros ?%elem_of_nil.
    + intros [= -> ->]%list_elem_of_singleton. simpl. eauto.
  - rewrite Wait_blocks_iff. simpl. by split; [intros [? _]|].
Qed.

(** In a run from a waiter that was emptied nothing is received. *)
Lemma run_emptied calls w' : run emptied calls w' → received calls = [].
Proof.
  unfold emptied. induction calls as [|c calls IH]; [done|].
  inversion 1 as [|? p w1 ? ? HSet Hrun|? ctx r w1 ? ? HWait Hrun]; subst.
  - injection HSet as <-. by apply IH.
  - unfold Wait in HWait. rewrite Wait_select_empty in HWait.
    destruct (Err (default Background ctx)).
    + apply list_elem_of_singleton in HWait as [= -> ->]. simpl. by apply IH.
    + by apply elem_of_nil in HWait.
Qed.

(** In a run from a waiter that holds a payload, that payload is received
    at most once and nothing else is. *)
Lemma run_holding p calls w' :
  run (holding p) calls w' → received calls = [] ∨ received calls = [p].
Proof.
  unfold holding. induction calls as [|c calls IH]; [by left|].
  inversion 1 as [|? q w1 ? ? HSet Hrun|? ctx r w1 ? ? HWait Hrun]; subst.
  - injection HSet as <-. by apply IH.
  - unfold Wait in HWait. rewrite Wait_select_full in HWait.
    apply elem_of_cons in HWait as [[= -> ->]|HWait].
    + right. simpl. by rewrite (run_emptied _ _ Hrun).
    + destruct (Err (default Background ctx)).
      * apply list_elem_of_singleton in HWait as [= -> ->]. simpl. by apply IH.
      * by apply elem_of_nil in HWait.
Qed.

(** X11. Whatever calls of [Set] and [Wait] are made on a new waiter, and
    in whatever order they take their steps, at most one call of [Wait]
    returns without an error, and the payload it returns is the one of
    the first call of [Set]. *)
Theorem at_most_one_delivery calls w :
  run NewPayloadWaiter calls w →
  (length (received calls) ≤ 1)%nat
  ∧ ∀ p, p ∈ received calls → head (deposited calls) = Some p.
Proof.
  induction calls as [|c calls IH]; [intros _; split; [simpl; lia|by intros ? ?%elem_of_nil]|].
  inversion 1 as [|? q w1 ? ? HSet Hrun|? ctx r w1 ? ? HWait Hrun]; subst.
  - injection HSet as <-. simpl.
    destruct (run_holding _ _ _ Hrun) as [->| ->]; simpl.
    + split; [lia|]. by intros ? ?%elem_of_nil.
    + split; [lia|]. by intros ? ->%list_elem_of_singleton.
  - unfold Wait, NewPayloadWaiter, make_chan in HWait.
    rewrite (Wait_select_empty false) in HWait.
    destruct (Err (default Background ctx)).
    + apply list_elem_of_singleton in HWait as [= -> ->]. simpl. by apply IH.
    + by apply elem_of_nil in HWait.
Qed.

End WaiterMore.

(** ** The pair behavior *)

Import behaviors_pair.

Section PairMore.
Context `{PairNames}.
Implicit Types (b : pairBehavior) (event : Event) (now tnow : Time).

(** A behavior that was made and started in a cell has no hit and no
    timer pending. *)
Lemma pair_inv_Init (m : PairCriterion) (d : Duration) (c : Cell) :
  pair_inv (Init (NewPairBehavior m d) c).
Proof. split; [by eexists|done]. Qed.

(** One event: no panic, the same cell, criterion and duration, at most
    one timer started and at most one event emitted, and as many timers
    started or pending before as events emitted or hits pending after. *)
Lemma ProcessEvent_step b event now tnow :
  pair_inv b →
  ∃ b' effs,
    ProcessEvent b event now tnow = Some (b', effs)
    ∧ pair_inv b'
    ∧ cell b' = cell b ∧ matches b' = matches b ∧ duration b' = duration b
    ∧ (length (emitted effs) + pending_hits b'
       = length (started effs) + pending_hits b)%nat.
Proof.
  intros [[c Hcell] Hpending]. unfold ProcessEvent, pending_hits, pair_inv.
  destruct (hit b) as [bhit|] eqn:Hhit, (timeout b) as [t|] eqn:Htimeout;
    try (by destruct Hpending as [Hp1 Hp2];
         first [specialize (Hp1 eq_refl)|specialize (Hp2 eq_refl)]).
  all: destruct (String.eqb (Topic event) EventPairTimeoutTopic);
    [|destruct (matches b event (hitData b)) as [data [|]]];
    try destruct (GetTime _ _) as [ehit ok];
    try destruct (ok && Time_Equal ehit bhit);
    unfold emitTimeout, emitPair; simpl; rewrite ?Hcell, ?Hhit; simpl;
    try destruct (duration b <? Time_Sub now bhit); simpl;
    rewrite ?Hcell, ?Hhit; simpl;
    eexists _, _; (split; [reflexivity|]); simpl;
    rewrite ?Hhit, ?Htimeout, ?Hcell;
    repeat split; first [by eexists|done|lia].
Qed.

Lemma emitted_app (effs effs' : list effect) :
  emitted (effs ++ effs') = emitted effs ++ emitted effs'.
Proof. apply omap_app. Qed.

Lemma started_app (effs effs' : list effect) :
  started (effs ++ effs') = started effs ++ started effs'.
Proof. apply omap_app. Qed.

(** X12. A behavior started in a cell handles any sequence of events
    without a panic, whatever the clock reads.  Its cell, criterion and
    duration stay as they are, a timer is pending exactly when a hit is,
    and every first hit is answered by exactly one event: the events
    emitted and the hit still pending are as many as the timers started
    and the hit pending at the start. *)
Theorem run_events_accounts b inputs :
  pair_inv b →
  ∃ b' effs,
    run_events b inputs = Some (b', effs)
    ∧ pair_inv b'
    ∧ cell b' = cell b ∧ matches b' = matches b ∧ duration b' = duration b
    ∧ (length (emitted effs) + pending_hits b'
       = length (started effs) + pending_hits b)%nat.
Proof.
  revert b. induction inputs as [|[[event now] tnow] rest IH]; intros b Hinv.
  - exists b, []. by repeat split; try apply Hinv.
  - destruct (ProcessEvent_step b event now tnow Hinv)
      as (b1 & effs1 & Hstep & Hinv1 & Hcell1 & Hmatches1 & Hduration1 & Hcount1).
    destruct (IH b1 Hinv1)
      as (b' & effs' & Hrun & Hinv' & Hcell' & Hmatches' & Hduration' & Hcount').
    exists b', (effs1 ++ effs'). simpl. rewrite Hstep. simpl. rewrite Hrun. simpl.
    split; [done|]. split; [done|].
    split; [congruence|]. split; [congruence|]. split; [congruence|].
    rewrite emitted_app, started_app, !length_app. lia.
Qed.

Lemma criterion_calls_app (effs effs' : list effect) :
  criterion_calls (effs ++ effs') = criterion_calls effs ++ criterion_calls effs'.
Proof. apply omap_app. Qed.

(** The criterion is called on an event exactly when its topic is not the
    topic of the timeout event. *)
Lemma ProcessEvent_calls b event now tnow b' effs :
  ProcessEvent b event now tnow = Some (b', effs) →
  criterion_calls effs
  = if String.eqb (Topic event) EventPairTimeoutTopic then [] else [event].
Proof.
  unfold ProcessEvent.
  destruct (String.eqb (Topic event) EventPairTimeoutTopic).
  - destruct (hit b) as [bhit|], (timeout b) as [t|];
      try (by intros [= <- <-]).
    destruct (GetTime _ _) as [ehit ok].
    destruct (ok && Time_Equal ehit bhit); [|by intros [= <- <-]].
    unfold emitTimeout. destruct (cell b), (hit b); simpl; by intros [= <- <-].
  - destruct (matches b event (hitData b)) as [data [|]]; [|by intros [= <- <-]].
    destruct (hit b) as [bhit|]; [|by intros [= <- <-]].
    destruct (timeout b) as [t|]; [|done]. simpl.
    unfold emitTimeout, emitPair.
    destruct (duration b <? Time_Sub now bhit); simpl;
      destruct (cell b), (hit b); simpl; by intros [= <- <-].
Qed.

(** X18. The criterion sees every event but the timeout events, once and
    in order: over any sequence of events, the events it is called with
    are the events of the sequence whose topic is not the topic of the
    timeout event. *)
Theorem criterion_sees_other_events b inputs b' effs :
  run_events b inputs = Some (b', effs) →
  criterion_calls effs
  = filter (λ event, Topic event ≠ EventPairTimeoutTopic) (inputs.*1.*1).
Proof.
  revert b effs. induction inputs as [|[[event now] tnow] rest IH]; intros b effs.
  - by intros [= <- <-].
  - simpl.
    destruct (ProcessEvent b event now tnow) as [[b1 effs1]|] eqn:Hstep; [|done].
    simpl. destruct (run_events b1 rest) as [[b2 effs2]|] eqn:Hrun; [|done].
    simpl. intros [= <- <-].
    rewrite criterion_calls_app, (ProcessEvent_calls _ _ _ _ _ _ Hstep), (IH _ _ Hrun).
    rewrite filter_cons.
    destruct (String.eqb_spec (Topic event) EventPairTimeoutTopic) as [Heq|Hne].
    + by rewrite decide_False by (intros ?; done).
    + by rewrite decide_True.
Qed.

(** X13. Events that the criterion does not match change nothing, in any
    state and however many they are: the behavior stays as it is, no
    event is emitted and no timer is started or stopped; the criterion is
    called once per event, with the stored data. *)
Theorem unmatched_events_ignored b inputs :
  Forall (λ input, Topic input.1.1 ≠ EventPairTimeoutTopic
                   ∧ (matches b input.1.1 (hitData b)).2 = false) inputs →
  run_events b inputs
  = Some (b, (λ input, CallMatches input.1.1 (hitData b)) <$> inputs).
Proof.
  induction 1 as [|[[event now] tnow] rest [Htopic Hmatch] _ IH]; [done|].
  simpl in *. unfold ProcessEvent.
  apply String.eqb_neq in Htopic. rewrite Htopic.
  destruct (matches b event (hitData b)) as [data ok]. simpl in Hmatch. subst ok.
  simpl. by rewrite IH.
Qed.

(** The event of a timer carries the values of the timer. *)
Lemma timer_event_values DefaultPayload (h : store) (t : Timer) :
  ∃ h', timer_event DefaultPayload h t
        = (h', Some (mkEvent (timer_topic t) (mkpayload (timer_values t)))).
Proof.
  unfold timer_event.
  destruct (NewPayload_wraps DefaultPayload h (VPayloadValues (timer_values t)))
    as (_ & Hnew & _); [done|].
  destruct (NewPayload DefaultPayload h _) as [h' p]. simpl in Hnew.
  rewrite Hnew. by eexists.
Qed.

(** X14. The reminder of a first hit is accepted.  An idle behavior in a
    cell records a first hit at the instant [now] with the data of the
    criterion and starts a timer of its duration, emitting nothing.  When
    the timer fires and its event is delivered, with no other hit in
    between, the behavior emits the timeout event with the instant and
    the data of that hit and the instant of the timeout, and is idle
    again.  The key of the first instant is not the default key of a
    payload. *)
Theorem first_hit_then_reminder DefaultPayload b c event now tnow0 data h now' tnow :
  cell b = Some c →
  hit b = None →
  Topic event ≠ EventPairTimeoutTopic →
  matches b event (hitData b) = (data, true) →
  ∃ b1 t h' reminder b2,
    ProcessEvent b event now tnow0
    = Some (b1, [CallMatches event (hitData b); AfterFunc t])
    ∧ hit b1 = Some now ∧ hitData b1 = data ∧ timeout b1 = Some t
    ∧ timer_d t = duration b ∧ timer_cell t = Some c
    ∧ timer_event DefaultPayload h t = (h', Some reminder)
    ∧ ProcessEvent b1 reminder now' tnow
      = Some (b2, [CellEmitNew c EventPairTimeoutTopic
                     (<[EventPairFirstTimePayload := VTime now]>
                       (<[EventPairFirstDataPayload := data]>
                         (<[EventPairTimeoutPayload := VTime tnow]> ∅)))])
    ∧ hit b2 = None ∧ timeout b2 = None.
Proof.
  intros Hcell Hhit Htopic%String.eqb_neq Hmatch.
  unfold ProcessEvent at 1. rewrite Htopic, Hmatch, Hhit. simpl.
  eexists _, _.
  edestruct (timer_event_values DefaultPayload h) as [h' ->].
  eexists h', _, _.
  split; [reflexivity|]. simpl. rewrite Hcell.
  split; [done|]. split; [done|]. split; [done|]. split; [done|]. split; [done|].
  split; [reflexivity|].
  unfold ProcessEvent. simpl. rewrite String.eqb_refl.
  unfold GetTime, Get. simpl. rewrite lookup_insert_eq. simpl.
  unfold Time_Equal. rewrite Z.eqb_refl. simpl.
  unfold emitTimeout. simpl. rewrite Hcell. simpl. done.
Qed.

(** X15. The deadline of a second hit is the real one.  With a duration
    below the largest one, a second hit after a time no longer than the
    duration is emitted as a pair, the very end of the duration included,
    and a later one as a timeout, neither more nor less: the saturation
    of the difference of the instants changes nothing.  With the largest
    duration a second hit is always emitted as a pair. *)
Theorem second_hit_deadline b c bhit t event now tnow data :
  cell b = Some c →
  hit b = Some bhit →
  timeout b = Some t →
  Topic event ≠ EventPairTimeoutTopic →
  matches b event (hitData b) = (data, true) →
  minDuration ≤ duration b ≤ maxDuration →
  ∃ b' effs topic vals,
    ProcessEvent b event now tnow = Some (b', effs)
    ∧ emitted effs = [(c, topic, vals)]
    ∧ (now - bhit ≤ duration b → topic = EventPairTopic)
    ∧ (duration b < now - bhit → duration b < maxDuration →
       topic = EventPairTimeoutTopic)
    ∧ (duration b = maxDuration → topic = EventPairTopic).
Proof.
  intros Hcell Hhit Htimeout Htopic%String.eqb_neq Hmatch [Hmin Hmax].
  unfold ProcessEvent. rewrite Htopic, Hmatch, Hhit, Htimeout. simpl.
  unfold emitTimeout, emitPair. simpl. rewrite Hcell, Hhit. simpl.
  assert (HSub : (now - bhit ≤ duration b → Time_Sub now bhit ≤ duration b)
                 ∧ (duration b < now - bhit → duration b < maxDuration →
                    duration b < Time_Sub now bhit)
                 ∧ Time_Sub now bhit ≤ maxDuration).
  { unfold Time_Sub.
    destruct (Z.ltb_spec (now - bhit) minDuration);
      [|destruct (Z.ltb_spec maxDuration (now - bhit))];
      repeat split; intros; lia. }
  destruct HSub as (Hintime & Hlate & Hsat).
  destruct (Z.ltb_spec (duration b) (Time_Sub now bhit)) as [Hlt|Hge]; simpl;
    eexists _, _, _, _; (split; [reflexivity|]); simpl; (split; [reflexivity|]).
  - split; [intros ?%Hintime; lia|]. split; [done|]. intros ?. lia.
  - split; [done|]. split; [|done].
    intros Hl Hm. specialize (Hlate Hl Hm). lia.
Qed.

(** X16. A reminder that outlives its hit does no harm.  A pending hit of
    the instant [bhit] is resolved by a second hit, a new first hit is
    recorded at another instant, and then the reminder of the old hit is
    delivered: it is dropped, the new hit stays pending with its own
    timer, and the three events emit one event in all, the one that
    resolved the old hit. *)
Theorem old_reminder_ignored b c bhit t second third reminder
    now2 tnow2 data2 now3 tnow3 data3 now4 tnow4 :
  cell b = Some c →
  hit b = Some bhit →
  timeout b = Some t →
  Topic second ≠ EventPairTimeoutTopic →
  matches b second (hitData b) = (data2, true) →
  Topic third ≠ EventPairTimeoutTopic →
  matches b third (hitData b) = (data3, true) →
  Topic reminder = EventPairTimeoutTopic →
  GetTime (EventPayload reminder) EventPairFirstTimePayload = (bhit, true) →
  now3 ≠ bhit →
  ∃ b' effs resolution t3,
    run_events b [(second, now2, tnow2); (third, now3, tnow3); (reminder, now4, tnow4)]
    = Some (b', effs)
    ∧ emitted effs = [resolution]
    ∧ hit b' = Some now3 ∧ hitData b' = data3 ∧ timeout b' = Some t3
    ∧ timer_values t3 = <[EventPairFirstTimePayload := VTime now3]> ∅.
Proof.
  intros Hcell Hhit Htimeout Htopic2%String.eqb_neq Hmatch2
    Htopic3%String.eqb_neq Hmatch3 Htopic4 HGetTime Hnow3.
  set (b1 := set_hit None (set_timeout None b)).
  assert (∃ topic vals,
    ProcessEvent b second now2 tnow2
    = Some (b1, [CallMatches second (hitData b); TimerStop t;
                 CellEmitNew c topic vals]))
    as (topic & vals & Hsecond).
  { unfold ProcessEvent. rewrite Htopic2, Hmatch2, Hhit, Htimeout. simpl.
    unfold emitTimeout, emitPair. simpl. rewrite Hcell, Hhit. simpl.
    destruct (duration b <? Time_Sub now2 bhit); by eexists _, _. }
  set (t3 := mkTimer (duration b) (Some c) EventPairTimeoutTopic
               (<[EventPairFirstTimePayload := VTime now3]> ∅)).
  set (b2 := set_timeout (Some t3) (set_hitData data3 (set_hit (Some now3) b1))).
  assert (Hthird : ProcessEvent b1 third now3 tnow3
                   = Some (b2, [CallMatches third (hitData b); AfterFunc t3])).
  { unfold ProcessEvent. rewrite Htopic3. simpl. rewrite Hmatch3. simpl.
    by rewrite Hcell. }
  assert (Hreminder : ProcessEvent b2 reminder now4 tnow4 = Some (b2, [])).
  { unfold ProcessEvent. rewrite Htopic4, String.eqb_refl. simpl.
    rewrite HGetTime. simpl. unfold Time_Equal.
    by destruct (Z.eqb_spec bhit now3) as [->|_]. }
  exists b2, ([CallMatches second (hitData b); TimerStop t; CellEmitNew c topic vals]
              ++ [CallMatches third (hitData b); AfterFunc t3] ++ []),
    (c, topic, vals), t3.
  split; [|done].
  unfold run_events. rewrite Hsecond. simpl.
  rewrite Hthird. simpl. by rewrite Hreminder.
Qed.

End PairMore.

(** ** The further properties at concrete inputs *)

Import examples examples_more.

(** X1 at the value nil: it is stored under the default key. *)
Lemma NewPayload_Get_witness :
  ∃ h' p pl,
    NewPayload "default" ∅ VNil = (h', p)
    ∧ h' !! p = Some pl
    ∧ Len pl = 1
    ∧ Get pl "default" = (VNil, true).
Proof.
  destruct (NewPayload_Get "default" ∅ VNil) as (h' & p & pl & HNew & _ & _ & Hp & HLen & HGet & _);
    [discriminate|].
  exists h', p, pl. split; [exact HNew|]. split; [exact Hp|].
  split; [exact HLen|exact HGet].
Defined.

(** X4 at the payload [{a: 1, b: true}], to which [{b: "x"}] and then
    the single value 7 are applied. *)
Lemma Apply_Apply_witness :
  ∃ h1 q h2 r rl,
    Apply "default" heap_1 1%positive (VPayloadValues {[ "b" := VString "x" ]})
    = Some (h1, q)
    ∧ Apply "default" h1 q (VInt 7) = Some (h2, r)
    ∧ h2 !! r = Some rl
    ∧ values rl = {[ "a" := VInt 1; "b" := VString "x"; "default" := VInt 7 ]}.
Proof.
  destruct (Apply_Apply "default" heap_1 1%positive
              (mkpayload {[ "a" := VInt 1; "b" := VBool true ]})
              (VPayloadValues {[ "b" := VString "x" ]}) (VInt 7))
    as (h1 & q & ql & h2 & r & rl & HApply1 & _ & HApply2 & Hr & Hrl & _);
    [reflexivity|exact I|exact I|].
  exists h1, q, h2, r, rl. split; [exact HApply1|]. split; [exact HApply2|].
  split; [exact Hr|]. rewrite Hrl. vm_compute. reflexivity.
Defined.

(** X5 at the payload [{a: 1, b: true}]. *)
Lemma Apply_copies_witness :
  ∃ h' q,
    Apply "default" heap_1 1%positive (VPayload 1%positive) = Some (h', q)
    ∧ q ≠ 1%positive
    ∧ h' !! q = Some (mkpayload {[ "a" := VInt 1; "b" := VBool true ]}).
Proof.
  destruct (Apply_copies "default" heap_1 1%positive
              (mkpayload {[ "a" := VInt 1; "b" := VBool true ]}))
    as (_ & (h' & q & HApply & Hq & Hcopy & _) & _); [reflexivity|].
  exists h', q. split; [exact HApply|]. split; [exact Hq|exact Hcopy].
Defined.

(** X6 at the single value 7. *)
Lemma NewPayload_as_Apply_witness :
  ∃ h1 q h2 r pl,
    NewPayload "default" heap_empty_1 (VInt 7) = (h1, q)
    ∧ Apply "default" heap_empty_1 1%positive (VInt 7) = Some (h2, r)
    ∧ h1 !! q = Some pl
    ∧ h2 !! r = Some pl.
Proof.
  apply (NewPayload_as_Apply "default" heap_empty_1 1%positive (VInt 7)).
  - reflexivity.
  - discriminate.
Defined.

(** X11 at four calls: the payload of the first deposit is received, the
    one of the second is not. *)
Lemma at_most_one_delivery_witness :
  received calls_1 = [Some 1%positive]
  ∧ head (deposited calls_1) = Some (Some 1%positive).
Proof.
  destruct (at_most_one_delivery calls_1 emptied) as [_ Hfirst].
  - apply (run_Wait _ _ _ NewPayloadWaiter); [by left|].
    apply (run_Set _ _ (holding (Some 1%positive))); [reflexivity|].
    apply (run_Set _ _ (holding (Some 1%positive))); [reflexivity|].
    apply (run_Wait _ _ _ emptied); [by left|]. apply run_nil.
  - split; [reflexivity|]. apply Hfirst. by left.
Defined.

(** X12 at a first hit, a second hit in time and a third hit: two timers
    are started, one event is emitted and one hit is pending. *)
Lemma run_events_accounts_witness :
  ∃ b' effs,
    run_events (H := names) idle
      [(event_a, 10, 0); (event_a, 20, 0); (event_a, 30, 0)] = Some (b', effs)
    ∧ length (started effs) = 2%nat
    ∧ length (emitted effs) = 1%nat
    ∧ pending_hits b' = 1%nat.
Proof.
  destruct (run_events_accounts (H := names) idle
              [(event_a, 10, 0); (event_a, 20, 0); (event_a, 30, 0)])
    as (b' & effs & Hrun & _); [apply pair_inv_Init|].
  exists b', effs. split; [exact Hrun|].
  vm_compute in Hrun. injection Hrun as <- <-. repeat split.
Defined.

(** X13 at two events that the criterion does not match. *)
Lemma unmatched_events_ignored_witness :
  run_events (H := names) deaf [(event_a, 10, 0); (event_b, 20, 0)]
  = Some (deaf, [CallMatches event_a VNil; CallMatches event_b VNil]).
Proof.
  apply (unmatched_events_ignored (H := names) deaf
           [(event_a, 10, 0); (event_b, 20, 0)]).
  repeat constructor; discriminate.
Defined.

(** X14 at a first hit of the instant 10 whose reminder is delivered at
    the instant 110. *)
Lemma first_hit_then_reminder_witness :
  ∃ b1 t h' reminder b2,
    ProcessEvent (H := names) idle event_a 10 0
    = Some (b1, [CallMatches event_a VNil; AfterFunc t])
    ∧ timer_event "default" ∅ t = (h', Some reminder)
    ∧ ProcessEvent (H := names) b1 reminder 110 111
      = Some (b2, [CellEmitNew "c" "pair-timeout"
                     {[ "pair:first-time" := VTime 10;
                        "pair:first-data" := VString "a";
                        "pair:timeout" := VTime 111 ]}])
    ∧ hit b2 = None.
Proof.
  destruct (first_hit_then_reminder (H := names) "default" idle "c" event_a 10 0
              (VString "a") ∅ 110 111)
    as (b1 & t & h' & reminder & b2 & Hfirst & _ & _ & _ & _ & _ & Htimer
        & Hreminder & Hhit & _);
    [reflexivity|reflexivity|discriminate|reflexivity|].
  exists b1, t, h', reminder, b2.
  split; [exact Hfirst|]. split; [exact Htimer|].
  split; [exact Hreminder|exact Hhit].
Defined.

(** X15 at a hit of the instant 10 and a duration of 100: a second hit at
    the instant 110 is a pair, one at the instant 111 a timeout. *)
Lemma second_hit_deadline_witness :
  (∃ b' effs vals,
     ProcessEvent (H := names) pending event_a 110 0 = Some (b', effs)
     ∧ emitted effs = [("c", "pair", vals)])
  ∧ (∃ b' effs vals,
       ProcessEvent (H := names) pending event_a 111 0 = Some (b', effs)
       ∧ emitted effs = [("c", "pair-timeout", vals)]).
Proof.
  split.
  - destruct (second_hit_deadline (H := names) pending "c" 10 timer_10 event_a 110 0
                (VString "a") eq_refl eq_refl eq_refl)
      as (b' & effs & topic & vals & Hprocess & Hemitted & Hpair & _);
      [discriminate|reflexivity|vm_compute; split; discriminate|].
    exists b', effs, vals. split; [exact Hprocess|].
    rewrite Hemitted, Hpair; [reflexivity|vm_compute; discriminate].
  - destruct (second_hit_deadline (H := names) pending "c" 10 timer_10 event_a 111 0
                (VString "a") eq_refl eq_refl eq_refl)
      as (b' & effs & topic & vals & Hprocess & Hemitted & _ & Hlate & _);
      [discriminate|reflexivity|vm_compute; split; discriminate|].
    exists b', effs, vals. split; [exact Hprocess|].
    rewrite Hemitted, Hlate; [reflexivity|vm_compute; reflexivity..].
Defined.

(** X16 at a hit of the instant 10 that is paired at the instant 20,
    a new hit at the instant 30 and the reminder of the first hit. *)
Lemma old_reminder_ignored_witness :
  ∃ b' effs resolution,
    run_events (H := names) pending
      [(event_a, 20, 0); (event_a, 30, 0); (reminder_10, 110, 111)]
    = Some (b', effs)
    ∧ emitted effs = [resolution]
    ∧ hit b' = Some 30.
Proof.
  destruct (old_reminder_ignored (H := names) pending "c" 10 timer_10
              event_a event_a reminder_10 20 0 (VString "a") 30 0 (VString "a")
              110 111)
    as (b' & effs & resolution & t3 & Hrun & Hemitted & Hhit & _);
    [reflexivity|reflexivity|reflexivity|discriminate|reflexivity
    |discriminate|reflexivity|reflexivity|reflexivity|discriminate|].
  exists b', effs, resolution.
  split; [exact Hrun|]. split; [exact Hemitted|exact Hhit].
Defined.

(** X17 at the payload [{a: 1, b: true}] and the mapping [{b: "x"}]: the
    result has two entries. *)
Lemma Apply_Len_witness :
  ∃ h' q ql,
    Apply "default" heap_1 1%positive (VPayloadValues {[ "b" := VString "x" ]})
    = Some (h', q)
    ∧ h' !! q = Some ql
    ∧ 2 ≤ Len ql ≤ 3.
Proof.
  destruct (Apply_Len "default" heap_1 1%positive
              (mkpayload {[ "a" := VInt 1; "b" := VBool true ]})
              (VPayloadValues {[ "b" := VString "x" ]}))
    as (h' & q & ql & HApply & Hq & Hlow & _ & Hhigh); [reflexivity|exact I|].
  exists h', q, ql. split; [exact HApply|]. split; [exact Hq|].
  split; [exact Hlow|exact Hhigh].
Defined.

(** X18 at a first hit, the reminder of that hit and another event. *)
Lemma criterion_sees_other_events_witness :
  ∃ b' effs,
    run_events (H := names) idle
      [(event_a, 10, 0); (reminder_10, 110, 111); (event_b, 120, 0)]
    = Some (b', effs)
    ∧ criterion_calls effs = [event_a; event_b].
Proof.
  eexists _, _. split; [reflexivity|].
  exact (criterion_sees_other_events (H := names) idle
           [(event_a, 10, 0); (reminder_10, 110, 111); (event_b, 120, 0)]
           _ _ eq_refl).
Defined.
